(** * http-docker-image-mgr: the storage layer

    A shallow embedding of the image storage file of the repository
    (the name index [ImageNameList], the identifier parser
    [parseImageName] and the three backends [FileImageStorage],
    [DockerImageStorage] and [MongoImageStorage]) together with the
    properties its specification states about them.

    Go values are modelled as follows.
    - [string] is Rocq's [string] (a sequence of bytes), [int] is [Z].
    - A slice [[]string] is a [list string]; a [map[string]string] is a
      [gmap string string].
    - A method with a pointer receiver that mutates the receiver takes
      the receiver's value and returns the new one next to its result.
    - A Go [error] result is an [option error], [None] being [nil]. *)

From Stdlib Require Import ZArith Ascii String.
From stdpp Require Import gmap strings list fin_maps.

Local Open Scope string_scope.

(** ** Errors *)

(** The operating-system error conditions the file system model raises. *)
Inductive Errno := ENOENT | ENOTDIR | EISDIR | ENOSPC.

Inductive error :=
| Errorf (msg : string)                           (* fmt.Errorf *)
| PathError (op path : string) (errno : Errno)    (* *os.PathError *)
| StreamError (msg : string)                      (* a failing io.Reader / io.Writer *)
| DialError (url : string)                        (* mgo.Dial could not connect *)
| ErrNotFound                                     (* mgo.ErrNotFound *)
| QueryError (msg : string)                       (* a failed database query *)
| RuntimeError (msg : string).                    (* an error of the docker client *)

(** ** The name index *)

Module NameIndex.

Record ImageNameList := {
  nameList : list string;          (* all the names *)
  nameMap : gmap string string     (* name map for avoiding duplicate name *)
}.

Definition NewImageNameList : ImageNameList :=
  {| nameList := []; nameMap := ∅ |}.

(** [Add]: [append] on a slice whose backing array is shared with an
    earlier [Names()] result may overwrite a slot of that earlier result,
    but never changes the elements of [inl.nameList] itself, so the
    receiver's slice is the list extended by [name]. *)
Definition Add (inl : ImageNameList) (name : string)
  : option error * ImageNameList :=
  match nameMap inl !! name with
  | Some _ => (Some (Errorf (name ++ " already exists")), inl)
  | None =>
      (None, {| nameList := nameList inl ++ [name];
                nameMap := <[name := name]> (nameMap inl) |})
  end.

Definition Names (inl : ImageNameList) : list string := nameList inl.

(** [l[i], l[j] = l[j], l[i]]: both right-hand sides are read first. An
    index out of range panics in Go; the loop of [Remove] only uses
    indices in range, and the model leaves the list as it is otherwise. *)
Definition swap (l : list string) (i j : nat) : list string :=
  match l !! i, l !! j with
  | Some a, Some b => <[j := a]> (<[i := b]> l)
  | _, _ => l
  end.

(** The [for i, image_name := range inl.nameList] loop of [Remove]: [rest]
    is what is left to visit, [i] the index of its head, [whole] the slice
    being updated. [Some l] is the slice stored by the [return nil] branch,
    [None] means the loop ran to its end. *)
Fixpoint Remove_loop (name : string) (whole rest : list string) (i : nat)
  : option (list string) :=
  match rest with
  | [] => None
  | image_name :: rest' =>
      let n := length whole in
      if decide (name = image_name)
      then Some (take (n - 1) (swap whole i (n - 1)))
      else Remove_loop name whole rest' (S i)
  end.

Definition Remove (inl : ImageNameList) (name : string)
  : option error * ImageNameList :=
  match nameMap inl !! name with
  | Some _ =>
      let m := delete name (nameMap inl) in
      match Remove_loop name (nameList inl) (nameList inl) 0 with
      | Some l => (None, {| nameList := l; nameMap := m |})
      | None =>
          (Some (Errorf ("image " ++ name ++ " is not found")),
           {| nameList := nameList inl; nameMap := m |})
      end
  | None => (Some (Errorf ("image " ++ name ++ " is not found")), inl)
  end.

(** The states a name index can be in: the struct's fields are written by
    [NewImageNameList], [Add] and [Remove] only. *)
Inductive reachable : ImageNameList → Prop :=
| reach_new : reachable NewImageNameList
| reach_add inl name : reachable inl → reachable (Add inl name).2
| reach_remove inl name : reachable inl → reachable (Remove inl name).2.

(** A run of [Add] calls, results discarded. *)
Definition AddAll (inl : ImageNameList) (names : list string) : ImageNameList :=
  foldl (λ s name, (Add s name).2) inl names.

(** The map and the list hold the same identifiers. *)
Definition agree (inl : ImageNameList) : Prop :=
  ∀ name, name ∈ nameList inl ↔ is_Some (nameMap inl !! name).

Definition wf (inl : ImageNameList) : Prop :=
  NoDup (nameList inl) ∧ agree inl.

End NameIndex.

(** ** The functions of Go's [strings] and [fmt] packages the code calls *)

Module GoStrings.

(** [len(s)] *)
Definition len (s : string) : Z := Z.of_nat (String.length s).

Fixpoint str_take (n : nat) (s : string) : string :=
  match n, s with
  | S n', String c s' => String c (str_take n' s')
  | _, _ => EmptyString
  end.

Fixpoint str_drop (n : nat) (s : string) : string :=
  match n, s with
  | S n', String _ s' => str_drop n' s'
  | _, _ => s
  end.

(** [s[lo:hi]] and [s[lo:]], for [0 <= lo <= hi <= len(s)] (Go panics
    otherwise; the code below only slices at an index [Index] returned). *)
Definition slice (s : string) (lo hi : Z) : string :=
  str_take (Z.to_nat (hi - lo)) (str_drop (Z.to_nat lo) s).

Definition slice_from (s : string) (lo : Z) : string :=
  str_drop (Z.to_nat lo) s.

(** [strings.HasPrefix(s, prefix)] *)
Fixpoint HasPrefix (s prefix : string) {struct prefix} : bool :=
  match prefix with
  | EmptyString => true
  | String c prefix' =>
      match s with
      | EmptyString => false
      | String d s' => if Ascii.eqb d c then HasPrefix s' prefix' else false
      end
  end.

(** [strings.HasSuffix(s, suffix)]:
    [len(s) >= len(suffix) && s[len(s)-len(suffix):] == suffix] *)
Definition HasSuffix (s suffix : string) : bool :=
  (len suffix <=? len s)%Z
  && String.eqb (slice_from s (len s - len suffix)) suffix.

(** [strings.Index(s, substr)]: the index of the first instance of
    [substr] in [s], or [-1]. *)
Fixpoint Index (s substr : string) : Z :=
  if HasPrefix s substr then 0%Z
  else match s with
       | EmptyString => (-1)%Z
       | String _ s' =>
           let k := Index s' substr in
           if (k =? -1)%Z then (-1)%Z else (k + 1)%Z
       end.

(** [fmt.Sprintf("%s/%s", a, b)], [fmt.Sprintf("%s/%s/%s", a, b, c)] and
    [fmt.Sprintf("%s:%s", a, b)] *)
Definition Sprintf_slash (a b : string) : string := a ++ "/" ++ b.
Definition Sprintf_slash3 (a b c : string) : string := a ++ "/" ++ b ++ "/" ++ c.
Definition Sprintf_colon (a b : string) : string := a ++ ":" ++ b.

End GoStrings.

Import GoStrings.

(** ** The identifier parser *)

Definition parseImageName (name : string) : string * string :=
  let pos := Index name ":" in
  if (pos =? -1)%Z then (name, "latest")
  else (slice name 0 pos, slice_from name (pos + 1)).

(** The identifier as the specification describes it, for comparison:
    [s] has a colon somewhere. *)
Definition has_colon (s : string) : Prop :=
  In ":"%char (list_ascii_of_string s).

(** ** The storage contract and the method sets *)

Module Contract.

Inductive gotype :=
| TString        (* string *)
| TError         (* error *)
| TReader        (* io.Reader *)
| TWriter        (* io.Writer *)
| TStrings       (* []string *)
| TSession       (* *mgo.Session *)
| TGridFS.       (* *mgo.GridFS *)

Record method := {
  mname : string;
  params : list gotype;
  results : list gotype
}.

#[global] Instance gotype_eq_dec : EqDecision gotype.
Proof. solve_decision. Defined.

#[global] Instance method_eq_dec : EqDecision method.
Proof. solve_decision. Defined.

Definition mWrite := {| mname := "Write"; params := [TString; TReader]; results := [TError] |}.
Definition mGet := {| mname := "Get"; params := [TString; TWriter]; results := [TError] |}.
Definition mDelete := {| mname := "Delete"; params := [TString]; results := [TError] |}.
Definition mList := {| mname := "List"; params := []; results := [TStrings; TError] |}.
Definition mRemove := {| mname := "Remove"; params := [TString]; results := [TError] |}.
Definition mloadImageNames := {| mname := "loadImageNames"; params := []; results := [TError] |}.

(** [type ImageStorage interface { Write; Get; Delete; List }] *)
Definition ImageStorage : list method := [mWrite; mGet; mDelete; mList].

(** The methods declared with receiver [*FileImageStorage],
    [*DockerImageStorage] and [*MongoImageStorage], in source order. *)
Definition FileImageStorage_methods : list method :=
  [mWrite; mGet; mList; mDelete; mloadImageNames].

Definition DockerImageStorage_methods : list method :=
  [mWrite; mGet; mDelete; mList].

Definition MongoImageStorage_methods : list method :=
  [mGet; mList; mWrite; mRemove; mloadImageNames;
   {| mname := "createGridFS"; params := [];
      results := [TSession; TGridFS; TError] |}].

(** Go's rule: a type implements an interface when its method set has
    every method of the interface, with the same name and signature. *)
Definition implements (methods iface : list method) : bool :=
  forallb (λ m, bool_decide (m ∈ methods)) iface.

(** Method lookup by name, as a call [x.name(...)] resolves it. *)
Definition lookup_method (methods : list method) (name : string) : option method :=
  List.find (λ m, String.eqb (mname m) name) methods.

End Contract.

(** ** The engine-delegated backend *)

Module DockerStore.

(** [docker.APIImages], the fields the code reads. *)
Record APIImages := { ID : string; RepoTags : list string }.

(** [*docker.Client] as the backend sees it in [List]: the answer of the
    runtime to [ListImages(docker.ListImagesOptions{All: false})]. *)
Record Client := { ListImages : list APIImages * option error }.

Record DockerImageStorage := { client : Client }.

(** The inner loop, [for _, name := range img.RepoTags]. *)
Fixpoint tags_loop (result : list string) (tags : list string) : list string :=
  match tags with
  | [] => result
  | name :: tags' =>
      (* discard the <none> image *)
      if HasPrefix name "<none>" || HasSuffix name ":<none>"
      then tags_loop result tags'
      else tags_loop (result ++ [name]) tags'
  end.

(** The outer loop, [for _, img := range imgs]. *)
Fixpoint imgs_loop (result : list string) (imgs : list APIImages) : list string :=
  match imgs with
  | [] => result
  | img :: imgs' => imgs_loop (tags_loop result (RepoTags img)) imgs'
  end.

Definition List (dis : DockerImageStorage) : list string * option error :=
  let result := [] in
  let '(imgs, err) := ListImages (client dis) in
  match err with
  | Some e => (result, Some e)
  | None => (imgs_loop result imgs, None)
  end.

(** The filter as the specification words it: an alias is a placeholder
    when it equals the token [<none>] or ends with [:<none>]. *)
Definition spec_placeholder (name : string) : bool :=
  String.eqb name "<none>" || HasSuffix name ":<none>".

Definition spec_List (imgs : list APIImages) : list string :=
  List.filter (λ name, negb (spec_placeholder name)) (concat (map RepoTags imgs)).

(** The filter the code applies. *)
Definition discarded (name : string) : bool :=
  HasPrefix name "<none>" || HasSuffix name ":<none>".

End DockerStore.

(** ** Streams *)

(** An [io.Reader]: the bytes it yields, then [io.EOF] ([None]) or an
    error. An [io.Writer]: the bytes it has taken so far and, when it is
    bounded, how many more it takes before its [Write] fails. *)
Record Reader := { rdata : list Byte.byte; rerr : option error }.
Record Writer := { wbuf : list Byte.byte; wroom : option nat }.

Definition Writer_write (w : Writer) (bytes : list Byte.byte) : option error * Writer :=
  match wroom w with
  | None => (None, {| wbuf := wbuf w ++ bytes; wroom := None |})
  | Some k =>
      if (List.length bytes <=? k)%nat
      then (None, {| wbuf := wbuf w ++ bytes; wroom := Some (k - List.length bytes) |})
      else (Some (StreamError "short write"),
            {| wbuf := wbuf w ++ take k bytes; wroom := Some 0 |})
  end.

(** ** The operating system's file system, as package [os] shows it

    A node is named by the list of the components of its path: slashes
    separate components and empty components are dropped, as the kernel
    does. The working directory of the process is the root, so a relative
    and an absolute path with the same components name the same node;
    the components [.] and [..] are not interpreted, and a path with an
    ancestor that is missing or a file has no node. [free] is the number
    of bytes the volume still takes. *)

Module OS.

Inductive node := NDir | NFile (content : list Byte.byte).

Record FS := { nodes : gmap (list string) node; free : nat }.

(** An open [*os.File]: the node it was opened on. *)
Abbreviation handle := (list string).

Fixpoint split_path (p cur : string) : list string :=
  match p with
  | EmptyString => [cur]
  | String c p' =>
      if Ascii.eqb c "/" then cur :: split_path p' ""
      else split_path p' (cur ++ String c "")
  end.

Definition components (p : string) : list string :=
  List.filter (λ c, negb (String.eqb c "")) (split_path p "").

Definition stat (fs : FS) (p : list string) : option node :=
  match p with
  | [] => Some NDir
  | _ => nodes fs !! p
  end.

(** The walk of [os.MkdirAll] from the root down: [at_dir] is the directory
    reached, [todo] the components still to enter or to create. *)
Fixpoint mkdir_all (m : gmap (list string) node) (at_dir todo : list string)
  : option Errno * gmap (list string) node :=
  match todo with
  | [] => (None, m)
  | c :: todo' =>
      let p := (at_dir ++ [c])%list in
      match m !! p with
      | Some (NFile _) => (Some ENOTDIR, m)
      | Some NDir => mkdir_all m p todo'
      | None => mkdir_all (<[p := NDir]> m) p todo'
      end
  end.

Definition MkdirAll (path : string) (fs : FS) : option error * FS :=
  if String.eqb path "" then (Some (PathError "mkdir" path ENOENT), fs)
  else match mkdir_all (nodes fs) [] (components path) with
       | (Some e, m) => (Some (PathError "mkdir" path e), {| nodes := m; free := free fs |})
       | (None, m) => (None, {| nodes := m; free := free fs |})
       end.

(** [os.Create(name)]: create or truncate, open for writing. *)
Definition Create (name : string) (fs : FS) : (handle + error) * FS :=
  let p := components name in
  if HasSuffix name "/" || bool_decide (p = [])
  then (inr (PathError "open" name EISDIR), fs)
  else match stat fs (removelast p) with
       | None => (inr (PathError "open" name ENOENT), fs)
       | Some (NFile _) => (inr (PathError "open" name ENOTDIR), fs)
       | Some NDir =>
           match nodes fs !! p with
           | Some NDir => (inr (PathError "open" name EISDIR), fs)
           | Some (NFile old) =>
               (inl p, {| nodes := <[p := NFile []]> (nodes fs);
                          free := free fs + List.length old |})
           | None =>
               (inl p, {| nodes := <[p := NFile []]> (nodes fs); free := free fs |})
           end
       end.

(** [os.Open(name)]: open for reading; a directory can be opened. *)
Definition Open (name : string) (fs : FS) : handle + error :=
  let p := components name in
  if String.eqb name "" then inr (PathError "open" name ENOENT)
  else match stat fs p with
       | None => inr (PathError "open" name ENOENT)
       | Some (NFile _) =>
           if HasSuffix name "/" then inr (PathError "open" name ENOTDIR)
           else inl p
       | Some NDir => inl p
       end.

Definition append_file (m : gmap (list string) node) (f : handle) (bytes : list Byte.byte)
  : gmap (list string) node :=
  match m !! f with
  | Some (NFile c) => <[f := NFile (c ++ bytes)]> m
  | _ => m
  end.

(** [io.Copy(f, reader)] into a file open for writing: everything the
    reader yields is written, until the reader fails or the volume is
    full. What was written before a failure stays in the file. *)
Definition Copy_to_file (f : handle) (reader : Reader) (fs : FS) : option error * FS :=
  let k := List.length (rdata reader) in
  if (k <=? free fs)%nat
  then (rerr reader,
        {| nodes := append_file (nodes fs) f (rdata reader); free := free fs - k |})
  else (Some (PathError "write" "" ENOSPC),
        {| nodes := append_file (nodes fs) f (take (free fs) (rdata reader)); free := 0 |}).

(** [io.Copy(writer, r)] out of a file open for reading. *)
Definition Copy_from_file (writer : Writer) (r : handle) (fs : FS) : option error * Writer :=
  match stat fs r with
  | Some (NFile c) => Writer_write writer c
  | Some NDir => (Some (PathError "read" "" EISDIR), writer)
  | None => (Some (PathError "read" "" ENOENT), writer)
  end.

End OS.

(** ** The filesystem backend *)

Module FileStore.
Import NameIndex.

Record FileImageStorage := { Dir : string; images : ImageNameList }.

(** The path [Write] hands to [os.MkdirAll], the one it hands to
    [os.Create], and the one [Get] hands to [os.Open]. *)
Definition Write_dir (fis : FileImageStorage) (name : string) : string :=
  let '(image_name, _) := parseImageName name in
  Sprintf_slash (Dir fis) image_name.

Definition Write_path (fis : FileImageStorage) (name : string) : string :=
  let '(_, image_version) := parseImageName name in
  Sprintf_slash (Write_dir fis name) image_version.

Definition Get_path (fis : FileImageStorage) (name : string) : string :=
  let '(image_name, image_version) := parseImageName name in
  Sprintf_slash3 (Dir fis) image_name image_version.

(** The identifier [Write] registers in the index. *)
Definition Write_id (name : string) : string :=
  let '(image_name, image_version) := parseImageName name in
  Sprintf_colon image_name image_version.

Definition Write (fis : FileImageStorage) (name : string) (reader : Reader) (fs : OS.FS)
  : option error * FileImageStorage * OS.FS :=
  let '(image_name, image_version) := parseImageName name in
  let abs_dir := Sprintf_slash (Dir fis) image_name in
  match OS.MkdirAll abs_dir fs with
  | (Some err, fs1) => (Some err, fis, fs1)
  | (None, fs1) =>
      (* create the file *)
      match OS.Create (Sprintf_slash abs_dir image_version) fs1 with
      | (inr err, fs2) => (Some err, fis, fs2)
      | (inl f, fs2) =>
          let '(err, fs3) := OS.Copy_to_file f reader fs2 in
          match err with
          | None =>
              (err,
               {| Dir := Dir fis;
                  images := (Add (images fis) (Sprintf_colon image_name image_version)).2 |},
               fs3)
          | Some _ => (err, fis, fs3)
          end
      end
  end.

Definition Get (fis : FileImageStorage) (name : string) (writer : Writer) (fs : OS.FS)
  : option error * Writer :=
  let '(image_name, image_version) := parseImageName name in
  match OS.Open (Sprintf_slash3 (Dir fis) image_name image_version) fs with
  | inr err => (Some err, writer)
  | inl r => OS.Copy_from_file writer r fs
  end.

Definition List (fis : FileImageStorage) : list string * option error :=
  (Names (images fis), None).

End FileStore.

(** ** The document store, as package [mgo] shows it

    The server is what the driver talks to: whether it accepts
    connections, whether it answers queries, the blobs of the GridFS
    namespace in upload order, and the sessions that are open. A session
    is named by a number; [dialled] counts the sessions handed out, so
    the next [mgo.Dial] returns session number [dialled]. *)

Module Mgo.

Record Server := {
  listening : bool;
  answering : bool;
  blobs : list (string * list Byte.byte);
  sessions : gset nat;
  dialled : nat
}.

Abbreviation Session := nat.

(** A [*mgo.GridFile] returned by [GridFS.Open]: open for reading. *)
Record GridFile := { gf_name : string; gf_data : list Byte.byte }.

(** How a call ends: it returns its [error] result, or it panics. *)
Inductive outcome := Return (err : option error) | Panic (msg : string).

Definition Dial (url : string) (srv : Server) : (Session + error) * Server :=
  if listening srv
  then (inl (dialled srv),
        {| listening := listening srv; answering := answering srv;
           blobs := blobs srv;
           sessions := {[dialled srv]} ∪ sessions srv;
           dialled := S (dialled srv) |})
  else (inr (DialError url), srv).

(** [session.Close()]: closing a closed session does nothing. *)
Definition Session_Close (s : Session) (srv : Server) : Server :=
  {| listening := listening srv; answering := answering srv;
     blobs := blobs srv;
     sessions := sessions srv ∖ {[s]};
     dialled := dialled srv |}.

(** [fs.Open(name)]: the most recently uploaded blob of that name. *)
Definition GridFS_Open (name : string) (srv : Server) : GridFile + error :=
  if answering srv
  then match List.find (λ b, String.eqb b.1 name) (rev (blobs srv)) with
       | Some b => inl {| gf_name := b.1; gf_data := b.2 |}
       | None => inr ErrNotFound
       end
  else inr (QueryError "no reachable servers").

(** [fs.Remove(name)]: deletes every blob of that name. *)
Definition GridFS_Remove (name : string) (srv : Server) : option error * Server :=
  if answering srv
  then (None,
        {| listening := listening srv; answering := answering srv;
           blobs := List.filter (λ b, negb (String.eqb b.1 name)) (blobs srv);
           sessions := sessions srv;
           dialled := dialled srv |})
  else (Some (QueryError "no reachable servers"), srv).

(** [fs.Find(nil).Iter()], then [iter.Next] until it returns false: the
    [Filename] of every record, none when the query fails. *)
Definition GridFS_Find_all (srv : Server) : list string :=
  if answering srv then map fst (blobs srv) else [].

(** [io.Copy(file, reader)] into a [GridFile] open for reading: the
    driver's [Write] panics, so the copy returns only when the reader
    yields no byte. *)
Definition Copy_to_GridFile (file : GridFile) (reader : Reader) : outcome :=
  match rdata reader with
  | [] => Return (rerr reader)
  | _ :: _ => Panic "GridFile is open for reading"
  end.

(** [io.Copy(writer, file)] out of a [GridFile]. *)
Definition Copy_from_GridFile (writer : Writer) (file : GridFile) : option error * Writer :=
  Writer_write writer (gf_data file).

End Mgo.

(** ** The document-store backend

    A deferred call is written where it runs: after the body, in the
    reverse order of the [defer] statements the body went through, also
    when the body panics. [file.Close()] on a [GridFile] open for reading
    changes nothing on the server and is not modelled. *)

Module MongoStore.
Import NameIndex Mgo.

Record MongoImageStorage := {
  url : string;
  db : string;
  fsPrefix : string;
  images : ImageNameList
}.

Definition set_images (mis : MongoImageStorage) (inl : ImageNameList) : MongoImageStorage :=
  {| url := url mis; db := db mis; fsPrefix := fsPrefix mis; images := inl |}.

(** The [*mgo.GridFS] handle is the namespace [fsPrefix] of database [db]
    on the session; the model has one namespace, so the handle carries no
    data. *)
Definition createGridFS (mis : MongoImageStorage) (srv : Server)
  : (Session + error) * Server :=
  match Dial (url mis) srv with
  | (inr err, srv1) => (inr err, srv1)
  | (inl session, srv1) => (inl session, srv1)
  end.

Definition Get (mis : MongoImageStorage) (name : string) (writer : Writer) (srv : Server)
  : option error * Writer * Server :=
  match createGridFS mis srv with
  | (inr err, srv1) => (Some err, writer, srv1)
  | (inl session, srv1) =>
      match GridFS_Open name srv1 with
      | inr err => (Some err, writer, srv1)
      | inl file =>
          (* defer file.Close(); defer session.Close() *)
          let '(err, writer1) := Copy_from_GridFile writer file in
          let srv2 := Session_Close session srv1 in
          (err, writer1, srv2)
      end
  end.

Definition List (mis : MongoImageStorage) : list string * option error :=
  (Names (images mis), None).

Definition Write (mis : MongoImageStorage) (name : string) (reader : Reader) (srv : Server)
  : outcome * MongoImageStorage * Server :=
  match createGridFS mis srv with
  | (inr err, srv1) => (Return (Some err), mis, srv1)
  | (inl session, srv1) =>
      (* defer session.Close() *)
      match GridFS_Open name srv1 with
      | inr err => (Return (Some err), mis, Session_Close session srv1)
      | inl file =>
          (* defer file.Close(); defer session.Close() *)
          let out := Copy_to_GridFile file reader in
          let mis1 :=
            match out with
            | Return None => set_images mis (Add (images mis) name).2
            | _ => mis
            end in
          (out, mis1, Session_Close session (Session_Close session srv1))
      end
  end.

Definition Remove (mis : MongoImageStorage) (name : string) (srv : Server)
  : option error * MongoImageStorage * Server :=
  match createGridFS mis srv with
  | (inr err, srv1) => (Some err, mis, srv1)
  | (inl session, srv1) =>
      (* defer session.Close() *)
      let '(err, srv2) := GridFS_Remove name srv1 in
      let mis1 :=
        match err with
        | None => set_images mis (NameIndex.Remove (images mis) name).2
        | Some _ => mis
        end in
      (err, mis1, Session_Close session srv2)
  end.

Definition loadImageNames (mis : MongoImageStorage) (srv : Server)
  : option error * MongoImageStorage * Server :=
  match createGridFS mis srv with
  | (inr err, srv1) => (Some err, mis, srv1)
  | (inl session, srv1) =>
      (* defer session.Close() *)
      let mis1 := set_images mis (AddAll (images mis) (GridFS_Find_all srv1)) in
      (None, mis1, Session_Close session srv1)
  end.

Definition NewMongoImageStorage (url db fsPrefix : string) (srv : Server)
  : MongoImageStorage * Server :=
  let mis := {| url := url; db := db; fsPrefix := fsPrefix;
                images := NewImageNameList |} in
  let '(_, mis1, srv1) := loadImageNames mis srv in
  (mis1, srv1).

(** The session an operation started on [srv] opens, if it opens one. *)
Definition opened (srv : Server) : Session := dialled srv.

(** The session the operation opened is still open on [srv']. *)
Definition leaked (srv srv' : Server) : bool :=
  bool_decide (opened srv ∈ sessions srv').

End MongoStore.

(** ** Sample data *)

Module Sample.

Definition index : NameIndex.ImageNameList :=
  NameIndex.AddAll NameIndex.NewImageNameList ["app:v1"].

Definition fis : FileStore.FileImageStorage :=
  {| FileStore.Dir := "/data"; FileStore.images := index |}.

Definition disk : OS.FS := {| OS.nodes := ∅; OS.free := 100 |}.

(** The payload [hello], and a stream that breaks after two bytes. *)
Definition hello : Reader :=
  {| rdata := [Byte.x68; Byte.x65; Byte.x6c; Byte.x6c; Byte.x6f]; rerr := None |}.

Definition broken : Reader :=
  {| rdata := [Byte.x68; Byte.x65]; rerr := Some (StreamError "unexpected EOF") |}.

Definition sink : Writer := {| wbuf := []; wroom := None |}.

(** A server that is up and holds one blob, no session open. *)
Definition server : Mgo.Server :=
  {| Mgo.listening := true; Mgo.answering := true;
     Mgo.blobs := [("app:v1", [Byte.x68; Byte.x69])];
     Mgo.sessions := ∅; Mgo.dialled := 0 |}.

Definition mis : MongoStore.MongoImageStorage :=
  {| MongoStore.url := "mongodb://localhost"; MongoStore.db := "images";
     MongoStore.fsPrefix := "fs"; MongoStore.images := index |}.

End Sample.

(** [s] has no slash: it can be one element of a path. *)
Definition no_slash (s : string) : Prop := ¬ In "/"%char (list_ascii_of_string s).

(** ** Removing files: [os.Remove] and the backend's [Delete] *)

Module OSRemove.
Import OS.

(** [os.Remove] returns a [*PathError] with operation [remove]; next to
    the conditions above its errno can be ENOTEMPTY (a directory that has
    entries) or EBUSY (the root). *)
Inductive RemoveErrno := Errno_of (e : Errno) | ENOTEMPTY | EBUSY.
Inductive RemoveError := RemovePathError (path : string) (errno : RemoveErrno).

(** [k] names a node strictly below [p]. *)
Definition below (p k : list string) : bool :=
  bool_decide (p `prefix_of` k ∧ k ≠ p).

Definition has_below (m : gmap (list string) node) (p : list string) : bool :=
  existsb (λ kv, below p kv.1) (map_to_list m).

(** [os.Remove(name)]: [unlink], then [rmdir]. A file goes (a path with
    a trailing slash does not name a file), a directory goes when nothing
    is below it. *)
Definition Remove (name : string) (fs : FS) : option RemoveError * FS :=
  let p := components name in
  if String.eqb name "" then (Some (RemovePathError name (Errno_of ENOENT)), fs)
  else match p with
       | [] => (Some (RemovePathError name EBUSY), fs)
       | _ :: _ =>
           match nodes fs !! p with
           | None => (Some (RemovePathError name (Errno_of ENOENT)), fs)
           | Some (NFile c) =>
               if HasSuffix name "/"
               then (Some (RemovePathError name (Errno_of ENOTDIR)), fs)
               else (None, {| nodes := delete p (nodes fs);
                              free := free fs + List.length c |})
           | Some NDir =>
               if has_below (nodes fs) p
               then (Some (RemovePathError name ENOTEMPTY), fs)
               else (None, {| nodes := delete p (nodes fs); free := free fs |})
           end
       end.

End OSRemove.

Module FileDelete.
Import NameIndex FileStore.

(** The path [Delete] hands to [os.Remove]. *)
Definition Delete_path (fis : FileImageStorage) (name : string) : string :=
  let '(image_name, image_version) := parseImageName name in
  Sprintf_slash3 (Dir fis) image_name image_version.

Definition Delete (fis : FileImageStorage) (name : string) (fs : OS.FS)
  : option OSRemove.RemoveError * FileImageStorage * OS.FS :=
  let '(image_name, image_version) := parseImageName name in
  match OSRemove.Remove (Sprintf_slash3 (Dir fis) image_name image_version) fs with
  | (None, fs1) =>
      (None,
       {| Dir := Dir fis;
          images := (NameIndex.Remove (images fis)
                       (Sprintf_colon image_name image_version)).2 |},
       fs1)
  | (Some err, fs1) => (Some err, fis, fs1)
  end.

End FileDelete.

(** ** The document store and the index side by side *)

Module MongoView.
Import NameIndex Mgo MongoStore.

(** The names of the blobs the store holds. *)
Definition blob_names (srv : Server) : list string := map fst (blobs srv).

(** The index lists exactly the names of the stored blobs. *)
Definition consistent (mis : MongoImageStorage) (srv : Server) : Prop :=
  ∀ x, x ∈ Names (images mis) ↔ x ∈ blob_names srv.

End MongoView.

(** ** The web layer: the handlers of [ImageWeb] *)

Module Web.

(** The two methods of the storage contract the handlers call, over a
    backend state [S] and the world [W] the backend works on. *)
Class StorageOps (S W : Type) := {
  storage_Write : S → string → Reader → W → option error * S * W;
  storage_Get : S → string → Writer → W → option error * Writer * W
}.

(** The filesystem backend as an [ImageStorage]. *)
#[global] Instance FileStorageOps : StorageOps FileStore.FileImageStorage OS.FS := {|
  storage_Write := FileStore.Write;
  storage_Get fis name writer fs :=
    let '(err, writer') := FileStore.Get fis name writer fs in (err, writer', fs)
|}.

(** [*http.Request], the fields the handlers read. *)
Record Request := { Method : string; URL_Path : string; Body : Reader }.

(** How a handler ends: it returns, leaving the response, the backend
    and the world as given, or it panics on an index out of range. *)
Inductive handled (S W : Type) :=
| Done (rw : Writer) (st : S) (w : W)
| IndexPanic.
Arguments Done {S W}.
Arguments IndexPanic {S W}.

(** [strings.Split(s, "/")] *)
Definition Split_slash (s : string) : list string := OS.split_path s "".

(** [rw.Write([]byte(msg))], its results dropped. *)
Definition respond (rw : Writer) (msg : string) : Writer :=
  (Writer_write rw (list_byte_of_string msg)).2.

Section handlers.
Context {S W : Type} `{StorageOps S W}.

(** The handler of [/image/get/]. *)
Definition get_handler (image_storage : S) (req : Request) (rw : Writer) (w : W)
  : handled S W :=
  let a := Split_slash (URL_Path req) in
  match a !! (List.length a - 1) with
  | None => IndexPanic
  | Some name =>
      let '(_, rw', w') := storage_Get image_storage name rw w in
      Done rw' image_storage w'
  end.

(** The handler of [/image/save/]. *)
Definition save_handler (image_storage : S) (req : Request) (rw : Writer) (w : W)
  : handled S W :=
  let image_name_info := Split_slash (URL_Path req) in
  let n := List.length image_name_info in
  if String.eqb (Method req) "POST"
  then
    if (n <? 2)%nat then IndexPanic
    else
      match image_name_info !! (n - 2), image_name_info !! (n - 1) with
      | Some repo, Some tag =>
          let '(err, st', w') :=
            storage_Write image_storage (repo ++ ":" ++ tag) (Body req) w in
          match err with
          | None => Done (respond rw "save image successfully") st' w'
          | Some _ => Done (respond rw "fail to save image") st' w'
          end
      | _, _ => IndexPanic
      end
  else Done rw image_storage w.

End handlers.

End Web.

(** ** The startup scan of the filesystem backend *)

(** [path.Clean] and [path.Join], on slash-separated paths. *)
Module GoPath.

Definition rooted (p : string) : bool := HasPrefix p "/".

(** The pass of [Clean] over the elements of the path: [out] is what has
    been kept, last element first. A [.] is dropped; a [..] takes the
    last kept element away when there is one that is not itself [..], is
    dropped at the root, and is kept otherwise. *)
Fixpoint clean_walk (rooted : bool) (out todo : list string) : list string :=
  match todo with
  | [] => rev out
  | c :: todo' =>
      if String.eqb c "." then clean_walk rooted out todo'
      else if String.eqb c ".." then
        match out with
        | top :: out' =>
            if String.eqb top ".." then clean_walk rooted (c :: out) todo'
            else clean_walk rooted out' todo'
        | [] =>
            if rooted then clean_walk rooted [] todo'
            else clean_walk rooted [c] todo'
        end
      else clean_walk rooted (c :: out) todo'
  end.

Fixpoint join_slash (l : list string) : string :=
  match l with
  | [] => ""
  | [c] => c
  | c :: l' => c ++ "/" ++ join_slash l'
  end.

Definition Clean (p : string) : string :=
  if String.eqb p "" then "."
  else match clean_walk (rooted p) [] (OS.components p) with
       | [] => if rooted p then "/" else "."
       | out => (if rooted p then "/" else "") ++ join_slash out
       end.

(** [path.Join(a, b)] *)
Definition Join (a b : string) : string :=
  if String.eqb a ""
  then (if String.eqb b "" then "" else Clean b)
  else Clean (a ++ "/" ++ b).

End GoPath.

Module OSReadDir.
Import OS.

(** [os.FileInfo], the methods the code calls. *)
Record FileInfo := { Name : string; IsDir : bool }.

Definition is_dir (n : node) : bool :=
  match n with NDir => true | NFile _ => false end.

(** The entry of directory [p] that the node at path [kv.1] is, if it
    is one. *)
Definition entry_of (p : list string) (kv : list string * node) : option FileInfo :=
  match last kv.1 with
  | Some c =>
      if bool_decide (kv.1 = p ++ [c])%list
      then Some {| Name := c; IsDir := is_dir kv.2 |}
      else None
  | None => None
  end.

(** Sorting by name, as [sort.Sort(byName(list))] leaves the entries:
    the names in a directory are distinct, so the order is determined. *)
Fixpoint insert_entry (e : FileInfo) (l : list FileInfo) : list FileInfo :=
  match l with
  | [] => [e]
  | x :: l' =>
      if String.leb (Name e) (Name x) then e :: l else x :: insert_entry e l'
  end.

Definition sort_entries (l : list FileInfo) : list FileInfo :=
  foldr insert_entry [] l.

(** The entries of directory [p], sorted by name. *)
Definition entries (m : gmap (list string) node) (p : list string) : list FileInfo :=
  sort_entries (omap (entry_of p) (map_to_list m)).

(** [ioutil.ReadDir(dirname)]: open, read all entries, sort by name. *)
Definition ReadDir (dirname : string) (fs : FS) : list FileInfo + error :=
  match Open dirname fs with
  | inr err => inr err
  | inl h =>
      match stat fs h with
      | Some NDir => inl (entries (nodes fs) h)
      | _ => inr (PathError "readdirent" dirname ENOTDIR)
      end
  end.

End OSReadDir.

Module FileScan.
Import NameIndex FileStore OSReadDir.

(** The inner loop, [for _, vf := range version_files]. *)
Fixpoint versions_loop (images : ImageNameList) (repo : string)
    (version_files : list FileInfo) : ImageNameList :=
  match version_files with
  | [] => images
  | vf :: rest =>
      if negb (IsDir vf)
      then versions_loop (Add images (Sprintf_colon repo (Name vf))).2 repo rest
      else versions_loop images repo rest
  end.

(** The outer loop, [for _, file := range files]. *)
Fixpoint files_loop (dir : string) (fs : OS.FS) (images : ImageNameList)
    (files : list FileInfo) : ImageNameList :=
  match files with
  | [] => images
  | file :: rest =>
      if IsDir file
      then
        let fName := GoPath.Join dir (Name file) in
        match ReadDir fName fs with
        | inl version_files =>
            files_loop dir fs (versions_loop images (Name file) version_files) rest
        | inr _ => files_loop dir fs images rest
        end
      else files_loop dir fs images rest
  end.

Definition loadImageNames (fis : FileImageStorage) (fs : OS.FS)
  : option error * FileImageStorage :=
  match ReadDir (Dir fis) fs with
  | inr err => (Some err, fis)
  | inl files =>
      (None, {| Dir := Dir fis; images := files_loop (Dir fis) fs (images fis) files |})
  end.

Definition NewFileImageStorage (dir : string) (fs : OS.FS) : FileImageStorage :=
  let fis := {| Dir := dir; images := NewImageNameList |} in
  (loadImageNames fis fs).2.

(** A name a directory entry can have. *)
Definition valid_name (c : string) : Prop :=
  c ≠ "" ∧ no_slash c ∧ c ≠ "." ∧ c ≠ "..".

(** Every node of the file system has a path of such names. *)
Definition sane (fs : OS.FS) : Prop :=
  ∀ k n, OS.nodes fs !! k = Some n → Forall valid_name k.

End FileScan.

(** A tree with two repositories, a stray file in the root and a
    directory inside a repository. *)
Module SampleTree.

Definition tree : OS.FS :=
  {| OS.nodes :=
       <[ ["data"] := OS.NDir ]>
       (<[ ["data"; "README"] := OS.NFile [Byte.x68] ]>
       (<[ ["data"; "repoA"] := OS.NDir ]>
       (<[ ["data"; "repoA"; "tagX"] := OS.NFile [Byte.x68; Byte.x69] ]>
       (<[ ["data"; "repoA"; "old"] := OS.NDir ]>
       (<[ ["data"; "repoB"] := OS.NDir ]>
       (<[ ["data"; "repoB"; "tagY"] := OS.NFile [] ]> ∅))))));
     OS.free := 100 |}.

End SampleTree.

(** * Properties *)

(** ** The name index *)

Section name_index.
Import NameIndex.

Implicit Types (inl : ImageNameList) (name : string) (l : list string).

Lemma Add_present inl name :
  is_Some (nameMap inl !! name) →
  Add inl name = (Some (Errorf (name ++ " already exists")), inl).
Proof. intros [v Hv]. unfold Add. by rewrite Hv. Qed.

Lemma Add_absent inl name :
  nameMap inl !! name = None →
  Add inl name =
    (None, {| nameList := nameList inl ++ [name];
              nameMap := <[name := name]> (nameMap inl) |}).
Proof. intros Hv. unfold Add. by rewrite Hv. Qed.

Lemma Add_wf inl name : wf inl → wf (Add inl name).2.
Proof.
  intros [Hnd Hag]. destruct (nameMap inl !! name) as [v|] eqn:Hv.
  - rewrite Add_present; [by split | eauto].
  - rewrite Add_absent by done. split; simpl.
    + apply NoDup_app. split; [done|]. split; [|apply NoDup_singleton].
      intros x Hx Hx'. apply list_elem_of_singleton in Hx' as ->.
      apply Hag in Hx. rewrite Hv in Hx. by destruct Hx.
    + intros x. simpl. rewrite elem_of_app, list_elem_of_singleton, (Hag x).
      destruct (decide (x = name)) as [->|Hne].
      * rewrite lookup_insert_eq. split; [eauto | by right].
      * rewrite lookup_insert_ne by done. split; [by intros [?|?] | by left].
Qed.

(** The loop stops at the first index holding [name]. *)
Lemma Remove_loop_found name whole rest i :
  name ∈ rest →
  ∃ k, rest !! k = Some name ∧
       Remove_loop name whole rest i =
         Some (take (length whole - 1) (swap whole (i + k) (length whole - 1))).
Proof.
  revert i. induction rest as [|x rest IH]; intros i Hin.
  - by apply elem_of_nil in Hin.
  - simpl. destruct (decide (name = x)) as [->|Hne].
    + exists 0. by rewrite Nat.add_0_r.
    + apply elem_of_cons in Hin as [?|Hin]; [done|].
      destruct (IH (S i) Hin) as (k & Hk & Heq).
      exists (S k). split; [done|]. rewrite Heq. do 3 f_equal. lia.
Qed.

Lemma Remove_loop_missing name whole rest i :
  name ∉ rest → Remove_loop name whole rest i = None.
Proof.
  revert i. induction rest as [|x rest IH]; intros i Hin; [done|].
  simpl. apply not_elem_of_cons in Hin as [Hne Hin].
  destruct (decide (name = x)); [done|]. by apply IH.
Qed.

(** Swapping slot [i] with the last slot and cutting the last slot off
    writes the last element into slot [i]. *)
Lemma swap_truncate l i name z :
  l !! i = Some name → last l = Some z →
  take (length l - 1) (swap l i (length l - 1))
  = take (length l - 1) (<[i := z]> l).
Proof.
  intros Hi Hz. unfold swap. rewrite Hi.
  rewrite last_lookup in Hz.
  replace (pred (length l)) with (length l - 1) in Hz by lia.
  rewrite Hz. by rewrite take_insert_ge by lia.
Qed.

Lemma take_shifted_perm (l2 : list string) name z :
  last (name :: l2) = Some z → take (length l2) (z :: l2) ≡ₚ l2.
Proof.
  destruct l2 as [|y l2 _] using rev_ind; [done|].
  rewrite app_comm_cons, last_snoc. intros [= ->].
  rewrite length_app, Nat.add_comm. simpl.
  rewrite take_app_length. apply Permutation_cons_append.
Qed.

Lemma truncate_perm l i name z :
  l !! i = Some name → last l = Some z →
  name :: take (length l - 1) (<[i := z]> l) ≡ₚ l.
Proof.
  intros Hi Hz.
  assert (Hlen : length (take i l) = i).
  { apply length_take_le. apply lookup_lt_Some in Hi. lia. }
  pose proof (take_drop_middle l i name Hi) as Hl.
  set (l1 := take i l) in *. set (l2 := drop (S i) l) in *.
  rewrite <- Hl in Hz |- *. rewrite <- Hlen.
  rewrite insert_app_r_alt by lia. rewrite Nat.sub_diag. simpl.
  rewrite length_app. simpl.
  replace (length l1 + S (length l2) - 1) with (length l1 + length l2) by lia.
  rewrite take_app_add'  by done.
  rewrite last_app in Hz. simpl in Hz.
  rewrite Permutation_middle. apply Permutation_app_head.
  apply Permutation_cons; [done|].
  apply (take_shifted_perm l2 name z).
  destruct (last (name :: l2)) as [y|] eqn:E; [by simplify_eq|].
  by apply last_None in E.
Qed.

Lemma Remove_absent inl name :
  nameMap inl !! name = None →
  Remove inl name = (Some (Errorf ("image " ++ name ++ " is not found")), inl).
Proof. intros Hv. unfold Remove. by rewrite Hv. Qed.

Lemma Remove_present inl name :
  wf inl → name ∈ nameList inl →
  ∃ i z, nameList inl !! i = Some name ∧ last (nameList inl) = Some z ∧
    Remove inl name =
      (None, {| nameList := take (length (nameList inl) - 1) (<[i := z]> (nameList inl));
                nameMap := delete name (nameMap inl) |}).
Proof.
  intros [_ Hag] Hin.
  destruct (proj1 (Hag name) Hin) as [v Hv].
  destruct (Remove_loop_found name (nameList inl) (nameList inl) 0 Hin)
    as (i & Hi & Hloop). simpl in Hloop.
  destruct (last (nameList inl)) as [z|] eqn:Hz.
  - exists i, z. split_and!; [done..|].
    unfold Remove. rewrite Hv, Hloop.
    by rewrite (swap_truncate _ _ name z).
  - apply last_None in Hz. rewrite Hz in Hin. by apply elem_of_nil in Hin.
Qed.

Lemma Remove_wf inl name : wf inl → wf (Remove inl name).2.
Proof.
  intros Hwf. destruct (decide (name ∈ nameList inl)) as [Hin|Hin].
  - destruct (Remove_present inl name Hwf Hin) as (i & z & Hi & Hz & ->).
    destruct Hwf as [Hnd Hag]. simpl.
    pose proof (truncate_perm _ _ _ _ Hi Hz) as Hperm.
    rewrite <- Hperm in Hnd. apply NoDup_cons in Hnd as [Hnot Hnd'].
    split; simpl; [done|]. intros x. simpl.
    destruct (decide (x = name)) as [->|Hne].
    + rewrite lookup_delete_eq. split; [done | by intros []].
    + rewrite lookup_delete_ne by done. rewrite <- (Hag x).
      assert (Hx : x ∈ name :: take (length (nameList inl) - 1) (<[i:=z]> (nameList inl))
                   ↔ x ∈ nameList inl) by (by rewrite Hperm).
      rewrite <- Hx, elem_of_cons. split; [by right | by intros [?|?]].
  - assert (nameMap inl !! name = None) as Hv.
    { destruct Hwf as [_ Hag]. apply eq_None_not_Some. by rewrite <- (Hag name). }
    by rewrite Remove_absent.
Qed.

Lemma reachable_wf inl : reachable inl → wf inl.
Proof.
  induction 1 as [|inl name _ IH|inl name _ IH].
  - split; [constructor|]. intros x. simpl. rewrite lookup_empty.
    split; [by intros ?%elem_of_nil | by intros []].
  - by apply Add_wf.
  - by apply Remove_wf.
Qed.

Lemma reachable_AddAll inl names : reachable inl → reachable (AddAll inl names).
Proof.
  revert inl. induction names as [|n names IH]; intros inl Hr; [done|].
  simpl. apply IH. by constructor.
Qed.

(** C4. Uniqueness: after any run of [Add] calls on a name index every
    identifier occurs at most once in it, and [Add] of an identifier that
    is already present (in the map; for an index in use, equivalently in
    the sequence) returns the duplicate error and gives back the very same
    index: map and sequence are untouched. *)
Theorem Add_unique :
  (∀ inl names, reachable inl → NoDup (Names (AddAll inl names))) ∧
  (∀ inl name, is_Some (nameMap inl !! name) →
     Add inl name = (Some (Errorf (name ++ " already exists")), inl)) ∧
  (∀ inl name, reachable inl → name ∈ Names inl →
     Add inl name = (Some (Errorf (name ++ " already exists")), inl)).
Proof.
  split_and!.
  - intros inl names Hr. by apply reachable_wf, reachable_AddAll.
  - apply Add_present.
  - intros inl name Hr Hin. apply Add_present.
    by apply (proj2 (reachable_wf inl Hr)).
Qed.

Lemma Add_unique_witness :
  NoDup (Names (AddAll NewImageNameList ["app:v1"; "db:v2"; "app:v1"])) ∧
  Add (AddAll NewImageNameList ["app:v1"]) "app:v1"
  = (Some (Errorf "app:v1 already exists"), AddAll NewImageNameList ["app:v1"]).
Proof.
  destruct Add_unique as (Hseq & Hdup & _). split.
  - apply Hseq. constructor.
  - apply (Hdup (AddAll NewImageNameList ["app:v1"]) "app:v1").
    vm_compute. eauto.
Defined.

(** C5. Removal: on a name index in use, [Remove] of an identifier held
    at slot [i] succeeds, deletes it from the map, writes the last element
    of the sequence into slot [i] and cuts the last slot off; the
    identifier is gone from [Names()], there is exactly one identifier
    less, and every other slot keeps its element. [Remove] of an absent
    identifier returns the not-found error and gives back the same index. *)
Theorem Remove_swap_delete inl name :
  reachable inl →
  (name ∈ Names inl →
     ∃ i z inl',
       Remove inl name = (None, inl') ∧
       (Names inl !! i = Some name) ∧ last (Names inl) = Some z ∧
       Names inl' = take (length (Names inl) - 1) (<[i := z]> (Names inl)) ∧
       nameMap inl' = delete name (nameMap inl) ∧
       (name ∉ Names inl') ∧
       (∀ x, x ∈ Names inl' ↔ x ∈ Names inl ∧ x ≠ name) ∧
       length (Names inl) = S (length (Names inl')) ∧
       (∀ j, j ≠ i → j < length (Names inl') → Names inl' !! j = Names inl !! j) ∧
       (i < length (Names inl') → Names inl' !! i = Some z)) ∧
  (name ∉ Names inl →
     Remove inl name = (Some (Errorf ("image " ++ name ++ " is not found")), inl)).
Proof.
  intros Hr. pose proof (reachable_wf inl Hr) as Hwf. split.
  - intros Hin.
    destruct (Remove_present inl name Hwf Hin) as (i & z & Hi & Hz & Heq).
    eexists i, z, _. split; [exact Heq|]. unfold Names in *. simpl.
    pose proof (lookup_lt_Some _ _ _ Hi) as Hlt.
    assert (Hlen : length (take (length (nameList inl) - 1) (<[i:=z]> (nameList inl)))
                   = length (nameList inl) - 1).
    { rewrite length_take, length_insert. lia. }
    pose proof (truncate_perm _ _ _ _ Hi Hz) as Hperm.
    assert (Hgone : name ∉ take (length (nameList inl) - 1) (<[i:=z]> (nameList inl))).
    { destruct Hwf as [Hnd _]. rewrite <- Hperm in Hnd.
      by apply NoDup_cons in Hnd as [? _]. }
    split_and!; try done.
    + intros x.
      assert (Hx : x ∈ name :: take (length (nameList inl) - 1) (<[i:=z]> (nameList inl))
                   ↔ x ∈ nameList inl) by (by rewrite Hperm).
      rewrite <- Hx, elem_of_cons. split.
      * intros Hin'. split; [by right|]. by intros ->.
      * by intros [[?|?] ?].
    + rewrite Hlen. lia.
    + intros j Hji Hj. rewrite Hlen in Hj.
      rewrite lookup_take_lt by lia. by rewrite list_lookup_insert_ne.
    + intros Hi'. rewrite Hlen in Hi'.
      rewrite lookup_take_lt by lia. by rewrite list_lookup_insert_eq.
  - intros Hin. apply Remove_absent.
    destruct Hwf as [_ Hag]. apply eq_None_not_Some. by rewrite <- (Hag name).
Qed.

Lemma Remove_swap_delete_witness :
  reachable (AddAll NewImageNameList ["a:1"; "b:1"; "c:1"; "d:1"]) ∧
  "b:1" ∈ Names (AddAll NewImageNameList ["a:1"; "b:1"; "c:1"; "d:1"]) ∧
  ∃ i z inl',
    Remove (AddAll NewImageNameList ["a:1"; "b:1"; "c:1"; "d:1"]) "b:1" = (None, inl') ∧
    (Names (AddAll NewImageNameList ["a:1"; "b:1"; "c:1"; "d:1"]) !! i = Some "b:1") ∧
    last (Names (AddAll NewImageNameList ["a:1"; "b:1"; "c:1"; "d:1"])) = Some z ∧
    Names inl' = ["a:1"; z; "c:1"].
Proof.
  assert (Hr : reachable (AddAll NewImageNameList ["a:1"; "b:1"; "c:1"; "d:1"])).
  { apply reachable_AddAll. constructor. }
  assert (Hin : "b:1" ∈ Names (AddAll NewImageNameList ["a:1"; "b:1"; "c:1"; "d:1"])).
  { vm_compute. apply list_elem_of_In. simpl. tauto. }
  split; [exact Hr|]. split; [exact Hin|].
  destruct (proj1 (Remove_swap_delete _ "b:1" Hr) Hin)
    as (i & z & inl' & Heq & Hi & Hz & Hnames & _).
  exists i, z, inl'. split_and!; try done.
  rewrite Hnames. vm_compute in Hi.
  destruct i as [|[|[|[|i]]]]; try discriminate Hi. reflexivity.
Defined.

(** C6. In every state of a name index reached from the empty index by
    [Add] and [Remove] calls the map and the sequence hold exactly the same
    identifiers, and so they do after one more [Add] or [Remove]. *)
Theorem index_agree inl :
  reachable inl →
  agree inl ∧ ∀ name, agree (Add inl name).2 ∧ agree (Remove inl name).2.
Proof.
  intros Hr. split; [apply reachable_wf, Hr|].
  intros name. split; apply reachable_wf; by constructor.
Qed.

Lemma index_agree_witness :
  agree (Remove (AddAll NewImageNameList ["a:1"; "b:1"]) "a:1").2.
Proof.
  apply (index_agree (AddAll NewImageNameList ["a:1"; "b:1"])).
  apply reachable_AddAll. constructor.
Defined.

End name_index.

(** ** Strings *)

Section go_strings.

Implicit Types (s r t : string) (c : ascii).

#[local] Arguments String.append : simpl nomatch.

Lemma str_app_assoc s r t : (s ++ r) ++ t = s ++ (r ++ t).
Proof. induction s as [|c s IH]; simpl; [done|]. by rewrite IH. Qed.

Lemma str_app_nil_r s : s ++ "" = s.
Proof. induction s as [|c s IH]; simpl; [done|]. by rewrite IH. Qed.

Lemma str_length_app s r : String.length (s ++ r) = String.length s + String.length r.
Proof. induction s as [|c s IH]; simpl; [done|]. by rewrite IH. Qed.

Lemma str_take_app s r : str_take (String.length s) (s ++ r) = s.
Proof. induction s as [|c s IH]; simpl; [by destruct r|]. by rewrite IH. Qed.

Lemma str_drop_app s r : str_drop (String.length s) (s ++ r) = r.
Proof. induction s as [|c s IH]; simpl; [by destruct r|]. done. Qed.

Lemma str_take_drop n s : str_take n s ++ str_drop n s = s.
Proof.
  revert s. induction n as [|n IH]; intros [|c s]; simpl; try done.
  by rewrite IH.
Qed.

Lemma str_drop_length (n : nat) s :
  (n ≤ String.length s)%nat → String.length (str_drop n s) = String.length s - n.
Proof.
  revert s. induction n as [|n IH]; intros [|c s] Hn; simpl in *; try lia.
  apply IH. lia.
Qed.

Lemma HasPrefix_spec s r : HasPrefix s r = true ↔ ∃ t, s = r ++ t.
Proof.
  revert s. induction r as [|c r IH]; intros s; simpl.
  - split; [intros _; by exists s | done].
  - destruct s as [|d s]; simpl.
    + split; [done | by intros [t ?]].
    + destruct (Ascii.eqb_spec d c) as [->|Hne].
      * rewrite IH. split; intros [t Ht]; exists t; congruence.
      * split; [done|]. intros [t Ht]. congruence.
Qed.

Lemma HasSuffix_spec s r : HasSuffix s r = true ↔ ∃ t, s = t ++ r.
Proof.
  unfold HasSuffix, slice_from, len. rewrite andb_true_iff, Z.leb_le, String.eqb_eq.
  split.
  - intros [Hle Heq].
    exists (str_take (Z.to_nat (Z.of_nat (String.length s) - Z.of_nat (String.length r))) s).
    rewrite <- Heq at 2. by rewrite str_take_drop.
  - intros [t ->]. rewrite str_length_app. split; [lia|].
    replace (Z.to_nat _) with (String.length t) by lia.
    apply str_drop_app.
Qed.

Lemma has_colon_cons c s : has_colon (String c s) ↔ c = ":"%char ∨ has_colon s.
Proof. unfold has_colon. simpl. split; intros [?|?]; auto. Qed.

Lemma Index_colon_lower s : (-1 ≤ Index s ":")%Z.
Proof.
  induction s as [|c s IH]; simpl; [done|].
  destruct (Ascii.eqb c ":"); [done|].
  destruct (Z.eqb_spec (Index s ":") (-1)); lia.
Qed.

Lemma Index_no_colon s : ¬ has_colon s → Index s ":" = (-1)%Z.
Proof.
  induction s as [|c s IH]; intros Hno; simpl; [done|].
  rewrite has_colon_cons in Hno.
  destruct (Ascii.eqb_spec c ":") as [->|Hne]; [tauto|].
  rewrite IH by tauto. done.
Qed.

(** [Index] finds the first colon. *)
Lemma Index_first_colon r t :
  ¬ has_colon r → Index (r ++ ":" ++ t) ":" = Z.of_nat (String.length r).
Proof.
  induction r as [|c r IH]; intros Hno; simpl; [done|].
  rewrite has_colon_cons in Hno.
  destruct (Ascii.eqb_spec c ":") as [->|Hne]; [tauto|].
  simpl in IH. rewrite IH by tauto.
  destruct (Z.eqb_spec (Z.of_nat (String.length r)) (-1)); lia.
Qed.

(** A string with a colon splits at its first colon. *)
Lemma has_colon_split s :
  has_colon s → ∃ r t, s = r ++ ":" ++ t ∧ ¬ has_colon r.
Proof.
  induction s as [|c s IH]; [by intros []|].
  rewrite has_colon_cons.
  destruct (Ascii.eqb_spec c ":") as [->|Hne].
  - intros _. exists "", s. split; [done | by intros []].
  - intros [?|Hs]; [done|]. destruct (IH Hs) as (r & t & -> & Hr).
    exists (String c r), t. split; [done|]. rewrite has_colon_cons. tauto.
Qed.

Lemma has_colon_app r t : has_colon (r ++ ":" ++ t).
Proof.
  induction r as [|c r IH]; simpl.
  - apply has_colon_cons. by left.
  - apply has_colon_cons. by right.
Qed.

Lemma parseImageName_no_colon s :
  ¬ has_colon s → parseImageName s = (s, "latest").
Proof. intros Hno. unfold parseImageName. by rewrite Index_no_colon. Qed.

Lemma parseImageName_colon r t :
  ¬ has_colon r → parseImageName (r ++ ":" ++ t) = (r, t).
Proof.
  intros Hno. unfold parseImageName, slice, slice_from.
  rewrite Index_first_colon by done.
  destruct (Z.eqb_spec (Z.of_nat (String.length r)) (-1)); [lia|].
  f_equal.
  - replace (Z.to_nat (Z.of_nat (String.length r) - 0)) with (String.length r) by lia.
    simpl. apply str_take_app.
  - replace (Z.to_nat (Z.of_nat (String.length r) + 1)) with (String.length (r ++ ":"))
      by (rewrite str_length_app; simpl; lia).
    rewrite <- (str_drop_app (r ++ ":") t) at 2. by rewrite str_app_assoc.
Qed.

(** C9. The parser splits at the first colon and defaults the tag:
    [redis] gives [redis] and [latest], [redis:3.2] gives [redis] and
    [3.2]; an identifier without a colon is the repository, with tag
    [latest]; an identifier with a colon is cut at its first colon, the
    text before it being the repository and everything after it the tag. *)
Theorem parseImageName_spec :
  parseImageName "redis" = ("redis", "latest") ∧
  parseImageName "redis:3.2" = ("redis", "3.2") ∧
  (∀ name, ¬ has_colon name → parseImageName name = (name, "latest")) ∧
  (∀ repo tag, ¬ has_colon repo → parseImageName (repo ++ ":" ++ tag) = (repo, tag)) ∧
  (∀ name, has_colon name →
     ∃ repo tag, name = repo ++ ":" ++ tag ∧ ¬ has_colon repo ∧
                 parseImageName name = (repo, tag)).
Proof.
  split_and!; try reflexivity.
  - apply parseImageName_no_colon.
  - apply parseImageName_colon.
  - intros name Hc. destruct (has_colon_split name Hc) as (r & t & -> & Hr).
    exists r, t. split_and!; try done. by apply parseImageName_colon.
Qed.

Lemma parseImageName_spec_witness :
  ¬ has_colon "ubuntu" ∧ parseImageName "ubuntu" = ("ubuntu", "latest") ∧
  parseImageName ("lib/redis" ++ ":" ++ "3.2:rc") = ("lib/redis", "3.2:rc").
Proof.
  destruct parseImageName_spec as (_ & _ & Hno & Hyes & _).
  assert (H1 : ¬ has_colon "ubuntu") by (unfold has_colon; simpl; intuition discriminate).
  assert (H2 : ¬ has_colon "lib/redis") by (unfold has_colon; simpl; intuition discriminate).
  split; [exact H1|]. split; [exact (Hno _ H1) | exact (Hyes _ "3.2:rc" H2)].
Defined.

End go_strings.

(** ** The storage contract *)

Section contract.
Import Contract.

(** C1. The filesystem and the engine-delegated backend have the four
    methods of [ImageStorage]; the document-store backend has [Write],
    [Get] and [List] but no [Delete]: its deleting method is named
    [Remove], so it does not implement the contract. *)
Theorem Mongo_lacks_Delete :
  implements FileImageStorage_methods ImageStorage = true ∧
  implements DockerImageStorage_methods ImageStorage = true ∧
  implements MongoImageStorage_methods ImageStorage = false ∧
  lookup_method MongoImageStorage_methods "Delete" = None ∧
  lookup_method MongoImageStorage_methods "Remove" = Some mRemove ∧
  lookup_method FileImageStorage_methods "Delete" = Some mDelete ∧
  lookup_method DockerImageStorage_methods "Delete" = Some mDelete.
Proof. by vm_compute. Qed.

(** Renaming [Remove] to [Delete] is all that is missing. *)
Lemma Mongo_implements_after_rename :
  implements (mDelete :: MongoImageStorage_methods) ImageStorage = true.
Proof. by vm_compute. Qed.

End contract.

(** ** The engine-delegated backend *)

Section docker.
Import DockerStore.

#[local] Arguments String.append : simpl nomatch.

Lemma tags_loop_filter result tags :
  tags_loop result tags
  = (result ++ List.filter (λ name, negb (discarded name)) tags)%list.
Proof.
  revert result. induction tags as [|name tags IH]; intros result.
  - simpl. by rewrite app_nil_r.
  - cbn [tags_loop List.filter]. fold (discarded name).
    destruct (discarded name); cbn [negb].
    + apply IH.
    + rewrite IH. by rewrite <- app_assoc.
Qed.

Lemma imgs_loop_filter result imgs :
  imgs_loop result imgs
  = (result ++ List.filter (λ name, negb (discarded name))
                           (concat (map RepoTags imgs)))%list.
Proof.
  revert result. induction imgs as [|img imgs IH]; intros result; simpl.
  - by rewrite app_nil_r.
  - rewrite IH, tags_loop_filter, List.filter_app. by rewrite <- app_assoc.
Qed.

(** C2, as the code has it. When the runtime answers with a listing,
    [List] returns the aliases of all images, flattened in order, without
    those that start with [<none>] or end with [:<none>]; every other
    alias is kept. *)
Theorem Docker_List_filters dis imgs :
  ListImages (client dis) = (imgs, None) →
  List dis = (List.filter (λ name, negb (discarded name))
                          (concat (map RepoTags imgs)), None) ∧
  ∀ name, name ∈ (List dis).1 ↔
    (∃ img, img ∈ imgs ∧ name ∈ RepoTags img) ∧
    ¬ (∃ rest, name = "<none>" ++ rest) ∧
    ¬ (∃ repo, name = repo ++ ":<none>").
Proof.
  intros Hl. assert (Heq : List dis =
    (List.filter (λ name, negb (discarded name)) (concat (map RepoTags imgs)), None)).
  { unfold List. rewrite Hl. by rewrite imgs_loop_filter. }
  split; [exact Heq|]. intros name. rewrite Heq. simpl.
  rewrite list_elem_of_In, List.filter_In, List.in_concat. unfold discarded.
  rewrite negb_true_iff, orb_false_iff.
  rewrite <- !not_true_iff_false, HasPrefix_spec, HasSuffix_spec.
  split.
  - intros [(tags & Ht & Hn) [Hp Hs]]. split; [|done].
    apply List.in_map_iff in Ht as (img & <- & Himg).
    exists img. by rewrite !list_elem_of_In.
  - intros [(img & Himg & Hn) [Hp Hs]]. split; [|done].
    exists (RepoTags img). apply list_elem_of_In in Himg, Hn.
    split; [|done]. apply List.in_map_iff. eauto.
Qed.

Lemma Docker_List_filters_witness :
  List {| client := {| ListImages :=
      ([ {| ID := "sha256:1f"; RepoTags := ["myrepo:<none>"; "<none>:<none>"; "myrepo:1.0"] |};
         {| ID := "sha256:2e"; RepoTags := ["redis:3.2"] |} ], None) |} |}
  = (["myrepo:1.0"; "redis:3.2"], None).
Proof.
  exact (proj1 (Docker_List_filters
    {| client := {| ListImages :=
      ([ {| ID := "sha256:1f"; RepoTags := ["myrepo:<none>"; "<none>:<none>"; "myrepo:1.0"] |};
         {| ID := "sha256:2e"; RepoTags := ["redis:3.2"] |} ], None) |} |} _ eq_refl)).
Defined.

(** C2 as the specification words it fails: an alias that starts with
    the placeholder token without being equal to it, and does not end with
    [:<none>], is dropped by the code and kept by the wording. *)
Lemma Docker_List_not_spec :
  let imgs := [ {| ID := "sha256:1f"; RepoTags := ["<none>:latest"; "app:v1"] |} ] in
  List {| client := {| ListImages := (imgs, None) |} |} = (["app:v1"], None) ∧
  spec_List imgs = ["<none>:latest"; "app:v1"] ∧
  List {| client := {| ListImages := (imgs, None) |} |} ≠ (spec_List imgs, None).
Proof. by vm_compute. Qed.

End docker.

(** ** The filesystem backend *)

Section file_store.
Import NameIndex FileStore.

#[local] Arguments String.append : simpl nomatch.

Implicit Types (fis : FileImageStorage) (name : string) (fs : OS.FS).

(** [Write], with the paths and the identifier named. *)
Lemma Write_steps fis name reader fs :
  Write fis name reader fs =
    match OS.MkdirAll (Write_dir fis name) fs with
    | (Some err, fs1) => (Some err, fis, fs1)
    | (None, fs1) =>
        match OS.Create (Write_path fis name) fs1 with
        | (inr err, fs2) => (Some err, fis, fs2)
        | (inl f, fs2) =>
            match OS.Copy_to_file f reader fs2 with
            | (Some err, fs3) => (Some err, fis, fs3)
            | (None, fs3) =>
                (None,
                 {| Dir := Dir fis;
                    images := (Add (images fis) (Write_id name)).2 |},
                 fs3)
            end
        end
    end.
Proof.
  unfold Write, Write_path, Write_dir, Write_id.
  destruct (parseImageName name) as [image_name image_version].
  destruct (OS.MkdirAll _ fs) as [[e|] fs1]; [done|].
  destruct (OS.Create _ fs1) as [[f|e] fs2]; [|done].
  by destruct (OS.Copy_to_file f reader fs2) as [[e|] fs3].
Qed.

Lemma Get_steps fis name writer fs :
  Get fis name writer fs =
    match OS.Open (Get_path fis name) fs with
    | inr err => (Some err, writer)
    | inl r => OS.Copy_from_file writer r fs
    end.
Proof.
  unfold Get, Get_path. by destruct (parseImageName name).
Qed.

Lemma Add_registers inl id : is_Some (nameMap (Add inl id).2 !! id).
Proof.
  unfold Add. destruct (nameMap inl !! id) as [v|] eqn:Hv; simpl.
  - by rewrite Hv.
  - by rewrite lookup_insert_eq.
Qed.

(** C7. [Write] returns the error of the first of directory creation,
    file creation and copy that fails, and then leaves the name index as
    it was; when the copy succeeds it returns success and the identifier
    is in the index, also when it was there before (the index is then
    unchanged and its duplicate error is dropped). *)
Theorem Write_errors_and_registration fis name reader fs :
  (∀ e fs1,
     OS.MkdirAll (Write_dir fis name) fs = (Some e, fs1) →
     Write fis name reader fs = (Some e, fis, fs1)) ∧
  (∀ fs1 e fs2,
     OS.MkdirAll (Write_dir fis name) fs = (None, fs1) →
     OS.Create (Write_path fis name) fs1 = (inr e, fs2) →
     Write fis name reader fs = (Some e, fis, fs2)) ∧
  (∀ fs1 f fs2 e fs3,
     OS.MkdirAll (Write_dir fis name) fs = (None, fs1) →
     OS.Create (Write_path fis name) fs1 = (inl f, fs2) →
     OS.Copy_to_file f reader fs2 = (Some e, fs3) →
     Write fis name reader fs = (Some e, fis, fs3)) ∧
  (∀ fs1 f fs2 fs3,
     OS.MkdirAll (Write_dir fis name) fs = (None, fs1) →
     OS.Create (Write_path fis name) fs1 = (inl f, fs2) →
     OS.Copy_to_file f reader fs2 = (None, fs3) →
     ∃ fis', Write fis name reader fs = (None, fis', fs3) ∧
             Dir fis' = Dir fis ∧
             images fis' = (Add (images fis) (Write_id name)).2 ∧
             is_Some (nameMap (images fis') !! Write_id name) ∧
             (reachable (images fis) → Write_id name ∈ Names (images fis')) ∧
             (is_Some (nameMap (images fis) !! Write_id name) →
              images fis' = images fis)) ∧
  (∀ e fis' fs', Write fis name reader fs = (Some e, fis', fs') → fis' = fis).
Proof.
  rewrite Write_steps. split_and!.
  - by intros e fs1 ->.
  - by intros fs1 e fs2 -> ->.
  - by intros fs1 f fs2 e fs3 -> -> ->.
  - intros fs1 f fs2 fs3 -> -> ->. eexists. split; [done|]. simpl.
    split_and!; try done.
    + apply Add_registers.
    + intros Hr. apply (proj2 (Add_wf _ (Write_id name) (reachable_wf _ Hr))).
      apply Add_registers.
    + intros Hin. by rewrite Add_present.
  - intros e fis' fs'.
    destruct (OS.MkdirAll _ fs) as [[e1|] fs1]; [congruence|].
    destruct (OS.Create _ fs1) as [[f|e2] fs2]; [|congruence].
    destruct (OS.Copy_to_file f reader fs2) as [[e3|] fs3]; congruence.
Qed.

End file_store.

Section file_store_roundtrip.
Import NameIndex FileStore.

#[local] Arguments String.append : simpl nomatch.

Implicit Types (fis : FileImageStorage) (name : string) (fs : OS.FS).

(** [Write] and [Get] build the same path. *)
Lemma Get_path_Write_path fis name : Get_path fis name = Write_path fis name.
Proof.
  unfold Get_path, Write_path, Write_dir.
  destruct (parseImageName name) as [image_name image_version].
  unfold Sprintf_slash3, Sprintf_slash. by rewrite !str_app_assoc.
Qed.

Lemma stat_nonempty fs (p : list string) :
  p ≠ [] → OS.stat fs p = OS.nodes fs !! p.
Proof. by destruct p. Qed.

Lemma Create_ok path fs f fs2 :
  OS.Create path fs = (inl f, fs2) →
  f = OS.components path ∧ f ≠ [] ∧ HasSuffix path "/" = false ∧
  OS.nodes fs2 = <[f := OS.NFile []]> (OS.nodes fs).
Proof.
  unfold OS.Create.
  destruct (HasSuffix path "/") eqn:Hs; simpl; [done|].
  case_bool_decide as Hp; [done|].
  destruct (OS.stat fs (removelast (OS.components path))) as [[|c]|]; try done.
  destruct (OS.nodes fs !! OS.components path) as [[|old]|]; try done;
    by intros [= <- <-].
Qed.

Lemma Copy_to_file_ok f reader fs fs3 c :
  OS.Copy_to_file f reader fs = (None, fs3) →
  OS.nodes fs !! f = Some (OS.NFile c) →
  OS.nodes fs3 !! f = Some (OS.NFile (c ++ rdata reader)).
Proof.
  unfold OS.Copy_to_file.
  destruct (_ <=? _)%nat; [|done]. intros [= _ <-] Hf. simpl.
  unfold OS.append_file. rewrite Hf. by rewrite lookup_insert_eq.
Qed.

(** C8. After a successful [Write] of an identifier, [Get] of the same
    identifier finds the file and hands the sink exactly the bytes that
    were written; a sink that takes them all ends up holding them, after
    what it held before, and [Get] returns success. *)
Theorem Write_Get_roundtrip fis name reader fs fis' fs' writer :
  Write fis name reader fs = (None, fis', fs') →
  Get fis' name writer fs' = Writer_write writer (rdata reader) ∧
  (wroom writer = None →
   Get fis' name writer fs'
   = (None, {| wbuf := wbuf writer ++ rdata reader; wroom := None |})).
Proof.
  rewrite Write_steps. intros Hw.
  destruct (OS.MkdirAll _ fs) as [[e1|] fs1]; [done|].
  destruct (OS.Create _ fs1) as [[f|e2] fs2] eqn:Hc; [|done].
  destruct (OS.Copy_to_file f reader fs2) as [[e3|] fs3] eqn:Hcopy; [done|].
  injection Hw as <- <-.
  apply Create_ok in Hc as (Hf & Hne & Hs & Hnodes).
  assert (Hfile : OS.nodes fs3 !! f = Some (OS.NFile (rdata reader))).
  { apply (Copy_to_file_ok f reader fs2 fs3 []); [done|].
    rewrite Hnodes. apply lookup_insert_eq. }
  assert (Hget : Get {| Dir := Dir fis; images := (Add (images fis) (Write_id name)).2 |}
                     name writer fs3 = Writer_write writer (rdata reader)).
  { rewrite Get_steps, Get_path_Write_path.
    change (Write_path _ name) with (Write_path fis name).
    unfold OS.Open. rewrite <- Hf.
    destruct (String.eqb_spec (Write_path fis name) "") as [Hempty|_].
    { rewrite Hempty in Hf. by subst f. }
    cbv zeta. rewrite (stat_nonempty fs3 f Hne), Hfile, Hs.
    unfold OS.Copy_from_file. by rewrite (stat_nonempty fs3 f Hne), Hfile. }
  split; [exact Hget|]. intros Hroom. rewrite Hget.
  unfold Writer_write. by rewrite Hroom.
Qed.

(** An identifier written in full is registered as it is; one without a
    colon is registered with the tag [latest]. *)
Lemma Write_id_full repo tag :
  ¬ has_colon repo → Write_id (repo ++ ":" ++ tag) = repo ++ ":" ++ tag.
Proof. intros Hno. unfold Write_id. by rewrite parseImageName_colon. Qed.

Lemma Write_id_default repo :
  ¬ has_colon repo → Write_id repo = repo ++ ":latest".
Proof. intros Hno. unfold Write_id. by rewrite parseImageName_no_colon. Qed.

(** On this file system a path that ends with a slash cannot be created
    as a file, so [Write] of an identifier whose tag is empty fails. *)
Lemma Write_empty_tag_fails fis repo reader fs :
  ¬ has_colon repo → (Write fis (repo ++ ":") reader fs).1.1 ≠ None.
Proof.
  intros Hno. rewrite Write_steps.
  destruct (OS.MkdirAll _ fs) as [[e1|] fs1]; [done|].
  assert (Hs : HasSuffix (Write_path fis (repo ++ ":")) "/" = true).
  { assert (Hp : parseImageName (repo ++ ":") = (repo, ""))
      by apply (parseImageName_colon repo "" Hno).
    apply HasSuffix_spec. exists (Write_dir fis (repo ++ ":")).
    unfold Write_path. by rewrite Hp. }
  unfold OS.Create. by rewrite Hs.
Qed.

(** C10 as worded fails: an identifier can end with a colon and have an
    earlier one, and the tag is then what follows the first colon. *)
Lemma trailing_colon_tag_not_empty :
  HasSuffix "repo:tag:" ":" = true ∧
  parseImageName "repo:tag:" = ("repo", "tag:") ∧
  (parseImageName "repo:tag:").2 ≠ "".
Proof. by vm_compute. Qed.

(** C10, for an identifier whose only colon is its last character: the
    tag is the empty string, not [latest], which is the tag only of an
    identifier without a colon; [Write] and [Get] of such an identifier
    are handed the path of the repository directory followed by a slash
    and nothing, not the path of its [latest] file. *)
Theorem trailing_colon_empty_tag fis repo :
  ¬ has_colon repo →
  parseImageName (repo ++ ":") = (repo, "") ∧
  parseImageName repo = (repo, "latest") ∧
  (∀ name, has_colon name → parseImageName name ≠ (name, "latest")) ∧
  Write_path fis (repo ++ ":") = Dir fis ++ "/" ++ repo ++ "/" ∧
  Get_path fis (repo ++ ":") = Dir fis ++ "/" ++ repo ++ "/" ∧
  Write_path fis repo = Dir fis ++ "/" ++ repo ++ "/latest" ∧
  Write_path fis (repo ++ ":") ≠ Write_path fis repo.
Proof.
  intros Hno.
  assert (Hp : parseImageName (repo ++ ":") = (repo, "")).
  { apply (parseImageName_colon repo "" Hno). }
  assert (Hq : parseImageName repo = (repo, "latest")).
  { by apply parseImageName_no_colon. }
  assert (Hw : Write_path fis (repo ++ ":") = Dir fis ++ "/" ++ repo ++ "/").
  { unfold Write_path, Write_dir. rewrite Hp. unfold Sprintf_slash.
    by rewrite !str_app_assoc. }
  assert (Hl : Write_path fis repo = Dir fis ++ "/" ++ repo ++ "/latest").
  { unfold Write_path, Write_dir. rewrite Hq. unfold Sprintf_slash.
    by rewrite !str_app_assoc. }
  split_and!; try done.
  - intros name Hc Heq.
    destruct (has_colon_split name Hc) as (r & t & -> & Hr).
    rewrite (parseImageName_colon r t Hr) in Heq.
    injection Heq as Heq _.
    apply (f_equal String.length) in Heq.
    rewrite str_length_app in Heq. simpl in Heq. lia.
  - by rewrite Get_path_Write_path.
  - rewrite Hw, Hl. intros Heq.
    do 3 apply String.app_inj in Heq. discriminate Heq.
Qed.

End file_store_roundtrip.

Section file_store_witnesses.
Import NameIndex FileStore.

Lemma Write_errors_and_registration_witness :
  (∃ fs3, Write Sample.fis "app:v1" Sample.broken Sample.disk
          = (Some (StreamError "unexpected EOF"), Sample.fis, fs3)) ∧
  (∃ fis' fs3, Write Sample.fis "app:v1" Sample.hello Sample.disk = (None, fis', fs3) ∧
               images fis' = images Sample.fis).
Proof.
  split.
  - destruct (Write_errors_and_registration Sample.fis "app:v1" Sample.broken Sample.disk)
      as (_ & _ & Hcopy & _).
    eexists. eapply Hcopy; vm_compute; reflexivity.
  - destruct (Write_errors_and_registration Sample.fis "app:v1" Sample.hello Sample.disk)
      as (_ & _ & _ & Hok & _).
    edestruct Hok as (fis' & Heq & _ & _ & _ & _ & Hsame);
      [vm_compute; reflexivity ..|].
    exists fis'. eexists. split; [exact Heq|].
    apply Hsame. vm_compute. eauto.
Defined.

Lemma Write_Get_roundtrip_witness :
  ∃ fis' fs',
    Write Sample.fis "app:v1" Sample.hello Sample.disk = (None, fis', fs') ∧
    Get fis' "app:v1" Sample.sink fs'
    = (None, {| wbuf := [Byte.x68; Byte.x65; Byte.x6c; Byte.x6c; Byte.x6f];
                wroom := None |}).
Proof.
  pose (r := Write Sample.fis "app:v1" Sample.hello Sample.disk).
  assert (Hw : Write Sample.fis "app:v1" Sample.hello Sample.disk = (None, r.1.2, r.2))
    by (vm_compute; reflexivity).
  exists r.1.2, r.2. split; [exact Hw|].
  apply (proj2 (Write_Get_roundtrip _ _ _ _ _ _ Sample.sink Hw)). reflexivity.
Defined.

Lemma trailing_colon_empty_tag_witness :
  ¬ has_colon "repo" ∧
  parseImageName "repo:" = ("repo", "") ∧
  Write_path Sample.fis "repo:" = "/data/repo/" ∧
  Write_path Sample.fis "repo:" ≠ Write_path Sample.fis "repo".
Proof.
  assert (Hno : ¬ has_colon "repo") by (unfold has_colon; simpl; intuition discriminate).
  destruct (trailing_colon_empty_tag Sample.fis "repo" Hno)
    as (Hp & _ & _ & Hw & _ & _ & Hne).
  split_and!; [exact Hno | exact Hp | exact Hw | exact Hne].
Defined.

End file_store_witnesses.

(** ** The document-store backend *)

Section mongo_store.
Import NameIndex Mgo MongoStore.

Implicit Types (mis : MongoImageStorage) (name : string) (srv : Server).

Lemma closed_not_open (s : nat) (X : gset nat) : s ∉ X ∖ {[s]}.
Proof. rewrite elem_of_difference, elem_of_singleton. by intros [_ ?]. Qed.

Lemma opened_is_open (s : nat) (X : gset nat) : s ∈ {[s]} ∪ X.
Proof. by apply elem_of_union_l, elem_of_singleton. Qed.

Ltac open_session mis srv :=
  unfold createGridFS, Dial;
  destruct (listening srv) eqn:Hlisten; simpl.

(** [Write], [Remove] and the startup scan close the session they open
    on every path: no session the operation opened is open afterwards. *)
Lemma Write_closes_session mis name reader srv :
  dialled srv ∉ sessions srv →
  leaked srv (Write mis name reader srv).2 = false.
Proof.
  intros Hfresh. unfold leaked, opened, Write. open_session mis srv.
  - destruct (GridFS_Open name _) as [file|e]; simpl;
      apply bool_decide_eq_false, closed_not_open.
  - by apply bool_decide_eq_false.
Qed.

Lemma Remove_closes_session mis name srv :
  dialled srv ∉ sessions srv →
  leaked srv (MongoStore.Remove mis name srv).2 = false.
Proof.
  intros Hfresh. unfold leaked, opened, MongoStore.Remove. open_session mis srv.
  - unfold GridFS_Remove. simpl. destruct (answering srv); simpl;
      apply bool_decide_eq_false, closed_not_open.
  - by apply bool_decide_eq_false.
Qed.

Lemma loadImageNames_closes_session mis srv :
  dialled srv ∉ sessions srv →
  leaked srv (loadImageNames mis srv).2 = false.
Proof.
  intros Hfresh. unfold leaked, opened, loadImageNames. open_session mis srv.
  - apply bool_decide_eq_false, closed_not_open.
  - by apply bool_decide_eq_false.
Qed.

(** [Get] closes its session when the blob opens. *)
Lemma Get_closes_session_when_found mis name writer srv file :
  dialled srv ∉ sessions srv →
  GridFS_Open name srv = inl file →
  leaked srv (Get mis name writer srv).2 = false.
Proof.
  intros Hfresh Hopen. unfold leaked, opened, Get. open_session mis srv.
  - unfold GridFS_Open in *. simpl.
    destruct (answering srv); [|done].
    destruct (List.find _ _); [|done]. simpl.
    destruct (Copy_from_GridFile _ _). simpl.
    apply bool_decide_eq_false, closed_not_open.
  - by apply bool_decide_eq_false.
Qed.

(** [Get] returns the error of [fs.Open] with its session still open. *)
Lemma Get_leaks_session_when_not_found mis name writer srv e :
  listening srv = true →
  GridFS_Open name srv = inr e →
  ∃ srv', Get mis name writer srv = (Some e, writer, srv') ∧
          leaked srv srv' = true.
Proof.
  intros Hl Hopen. unfold leaked, opened, Get, createGridFS, Dial. rewrite Hl.
  unfold GridFS_Open in *. simpl.
  destruct (answering srv).
  - destruct (List.find _ _); [done|]. injection Hopen as <-.
    eexists. split; [done|]. simpl. apply bool_decide_eq_true, opened_is_open.
  - injection Hopen as <-.
    eexists. split; [done|]. simpl. apply bool_decide_eq_true, opened_is_open.
Qed.

(** C3, where the code departs from it. [Get] of an identifier the
    store does not hold, on a server that is up: the session is opened,
    [fs.Open] fails with the not-found error, and [Get] returns it with
    the session still open; [Write] of the same identifier on the same
    server takes the same path and closes its session. *)
Theorem Mongo_Get_leaks_session :
  ∃ srv',
    Get Sample.mis "db:v2" Sample.sink Sample.server
    = (Some ErrNotFound, Sample.sink, srv') ∧
    sessions srv' = {[0]} ∧
    leaked Sample.server srv' = true ∧
    (Write Sample.mis "db:v2" Sample.hello Sample.server).1.1 = Return (Some ErrNotFound) ∧
    leaked Sample.server (Write Sample.mis "db:v2" Sample.hello Sample.server).2 = false.
Proof.
  destruct (Get_leaks_session_when_not_found Sample.mis "db:v2" Sample.sink
              Sample.server ErrNotFound) as (srv' & Heq & Hleak); [done..|].
  exists srv'. split; [exact Heq|].
  split; [|split; [exact Hleak|]].
  - injection Heq as <-. simpl. apply (right_id_L ∅ (∪)).
  - split; [done|]. by apply Write_closes_session.
Qed.

End mongo_store.

(** * Further properties *)

(** ** The name index: how the operations compose *)

Section name_index_more.
Import NameIndex.

Implicit Types (inl : ImageNameList) (name : string) (l : list string).

Lemma index_eta inl : {| nameList := nameList inl; nameMap := nameMap inl |} = inl.
Proof. by destruct inl. Qed.

Lemma wf_absent inl name : wf inl → name ∉ nameList inl → nameMap inl !! name = None.
Proof.
  intros [_ Hag] Hin. apply eq_None_not_Some. by rewrite <- (Hag name).
Qed.

(** The loop walks past the slots that do not hold [name]. *)
Lemma Remove_loop_skip name whole pre rest i :
  name ∉ pre →
  Remove_loop name whole (pre ++ rest) i
  = Remove_loop name whole rest (i + length pre).
Proof.
  revert i. induction pre as [|x pre IH]; intros i Hin; simpl.
  - by rewrite Nat.add_0_r.
  - apply not_elem_of_cons in Hin as [Hne Hin].
    destruct (decide (name = x)); [done|].
    rewrite IH by done. f_equal. lia.
Qed.

Lemma Remove_after_Add inl name :
  wf inl → name ∉ nameList inl → Remove (Add inl name).2 name = (None, inl).
Proof.
  intros Hwf Hin. pose proof (wf_absent inl name Hwf Hin) as Hv.
  rewrite Add_absent by done. unfold Remove. simpl.
  rewrite lookup_insert_eq.
  rewrite (Remove_loop_skip name _ (nameList inl) [name] 0 Hin). simpl.
  destruct (decide (name = name)); [|done].
  rewrite length_app. simpl.
  replace (length (nameList inl) + 1 - 1) with (length (nameList inl)) by lia.
  assert (Hlast : (nameList inl ++ [name])%list !! length (nameList inl) = Some name).
  { rewrite lookup_app_r by lia. by rewrite Nat.sub_diag. }
  unfold swap. rewrite Hlast.
  rewrite take_insert_ge by lia. rewrite take_insert_ge by lia.
  rewrite take_app_length.
  rewrite (delete_insert_id _ _ _ Hv). by rewrite index_eta.
Qed.

Lemma Remove_elem inl name x :
  wf inl → x ∈ Names (Remove inl name).2 ↔ x ∈ Names inl ∧ x ≠ name.
Proof.
  intros Hwf. unfold Names. destruct (decide (name ∈ nameList inl)) as [Hin|Hin].
  - destruct (Remove_present inl name Hwf Hin) as (i & z & Hi & Hz & ->). simpl.
    pose proof (truncate_perm _ _ _ _ Hi Hz) as Hperm.
    assert (Hgone : name ∉ take (length (nameList inl) - 1) (<[i:=z]> (nameList inl))).
    { destruct Hwf as [Hnd _]. rewrite <- Hperm in Hnd.
      by apply NoDup_cons in Hnd as [? _]. }
    assert (Hx : x ∈ name :: take (length (nameList inl) - 1) (<[i:=z]> (nameList inl))
                 ↔ x ∈ nameList inl) by (by rewrite Hperm).
    rewrite <- Hx, elem_of_cons. split.
    + intros Hin'. split; [by right|]. by intros ->.
    + by intros [[?|?] ?].
  - rewrite Remove_absent by (by apply wf_absent). split; [|by intros [? _]].
    intros Hx. split; [done|]. by intros ->.
Qed.

(** X1. [Add] of a new identifier followed by [Remove] of it gives back
    the index exactly as it was: same map, same sequence in the same
    order. The other way round, [Remove] of an identifier the index holds
    followed by [Add] of it keeps the same identifiers and puts that one
    last in the sequence. *)
Theorem Add_Remove_restores inl name :
  reachable inl →
  (name ∉ Names inl → Remove (Add inl name).2 name = (None, inl)) ∧
  (name ∈ Names inl →
     Names (Add (Remove inl name).2 name).2
     = (Names (Remove inl name).2 ++ [name])%list ∧
     ∀ x, x ∈ Names (Add (Remove inl name).2 name).2 ↔ x ∈ Names inl).
Proof.
  intros Hr. pose proof (reachable_wf inl Hr) as Hwf. split.
  - intros Hin. by apply Remove_after_Add.
  - intros Hin. pose proof (Remove_wf inl name Hwf) as Hwf'.
    assert (Hgone : name ∉ nameList (Remove inl name).2).
    { intros Hx. apply (Remove_elem inl name name Hwf) in Hx as [_ ?]. done. }
    rewrite (Add_absent (Remove inl name).2 name) by (by apply wf_absent).
    unfold Names. simpl. split; [done|].
    intros x. rewrite elem_of_app, list_elem_of_singleton.
    pose proof (Remove_elem inl name x Hwf) as Hx. unfold Names in Hx. rewrite Hx.
    destruct (decide (x = name)) as [->|Hne]; [tauto|]. tauto.
Qed.

Lemma Add_Remove_restores_witness :
  Remove (Add Sample.index "db:v2").2 "db:v2" = (None, Sample.index) ∧
  Names (Add (Remove Sample.index "app:v1").2 "app:v1").2
  = (Names (Remove Sample.index "app:v1").2 ++ ["app:v1"])%list.
Proof.
  destruct (Add_Remove_restores Sample.index "db:v2") as [Hnew _].
  { apply reachable_AddAll. constructor. }
  destruct (Add_Remove_restores Sample.index "app:v1") as [_ Hold].
  { apply reachable_AddAll. constructor. }
  split.
  - apply Hnew. vm_compute. intros H. apply list_elem_of_In in H. simpl in H.
    intuition discriminate.
  - apply Hold. vm_compute. apply list_elem_of_In. simpl. tauto.
Defined.

(** X2. [Add] returns [nil] exactly for an identifier that is not in the
    index, and [Remove] exactly for one that is. *)
Theorem Add_Remove_results inl name :
  reachable inl →
  ((Add inl name).1 = None ↔ name ∉ Names inl) ∧
  ((Remove inl name).1 = None ↔ name ∈ Names inl).
Proof.
  intros Hr. pose proof (reachable_wf inl Hr) as Hwf. split.
  - destruct (decide (name ∈ nameList inl)) as [Hin|Hin].
    + rewrite Add_present by (by apply (proj2 Hwf)). by split.
    + rewrite Add_absent by (by apply wf_absent). by split.
  - destruct (decide (name ∈ nameList inl)) as [Hin|Hin].
    + destruct (Remove_present inl name Hwf Hin) as (i & z & _ & _ & ->). by split.
    + rewrite Remove_absent by (by apply wf_absent). by split.
Qed.

Lemma Add_Remove_results_witness :
  ((Add Sample.index "app:v1").1 = None ↔ "app:v1" ∉ Names Sample.index) ∧
  ((Remove Sample.index "app:v1").1 = None ↔ "app:v1" ∈ Names Sample.index).
Proof. apply Add_Remove_results, reachable_AddAll. constructor. Defined.

Lemma wf_dom inl : wf inl → dom (nameMap inl) = list_to_set (nameList inl).
Proof.
  intros [_ Hag]. apply set_eq. intros x.
  rewrite elem_of_dom, elem_of_list_to_set. by rewrite (Hag x).
Qed.

(** X3. The sequence is as long as the map is large: [Names()] lists
    every identifier of the map once. *)
Theorem Names_length_size inl :
  reachable inl → length (Names inl) = size (nameMap inl).
Proof.
  intros Hr. pose proof (reachable_wf inl Hr) as Hwf.
  rewrite <- size_dom, (wf_dom inl Hwf).
  symmetry. apply size_list_to_set, Hwf.
Qed.

Lemma Names_length_size_witness :
  length (Names (AddAll Sample.index ["db:v2"; "app:v1"]))
  = size (nameMap (AddAll Sample.index ["db:v2"; "app:v1"])).
Proof. apply Names_length_size, reachable_AddAll, reachable_AddAll. constructor. Defined.

Lemma Add_prefix inl name : Names inl `prefix_of` Names (Add inl name).2.
Proof.
  unfold Add. destruct (nameMap inl !! name); simpl; [done|].
  by apply prefix_app_r.
Qed.

Lemma Add_elem inl name x :
  wf inl → x ∈ Names (Add inl name).2 ↔ x ∈ Names inl ∨ x = name.
Proof.
  intros Hwf. unfold Names. destruct (decide (name ∈ nameList inl)) as [Hin|Hin].
  - rewrite Add_present by (by apply (proj2 Hwf)). simpl.
    split; [by left | by intros [?| ->]].
  - rewrite Add_absent by (by apply wf_absent). simpl.
    by rewrite elem_of_app, list_elem_of_singleton.
Qed.

Lemma AddAll_wf inl names : wf inl → wf (AddAll inl names).
Proof.
  revert inl. induction names as [|n names IH]; intros inl Hwf; [done|].
  simpl. by apply IH, Add_wf.
Qed.

Lemma AddAll_elem inl names x :
  wf inl → x ∈ Names (AddAll inl names) ↔ x ∈ Names inl ∨ x ∈ names.
Proof.
  revert inl. induction names as [|n names IH]; intros inl Hwf; simpl.
  - rewrite elem_of_nil. tauto.
  - rewrite IH by (by apply Add_wf). rewrite Add_elem by done.
    rewrite elem_of_cons. tauto.
Qed.

(** X4. A run of [Add] calls only appends: the sequence it starts from
    stays in front, in its order; afterwards the index holds what it held
    and what was added; and identifiers that are new and distinct are
    listed behind it in the order of the calls. *)
Theorem AddAll_appends inl names :
  reachable inl →
  Names inl `prefix_of` Names (AddAll inl names) ∧
  (∀ x, x ∈ Names (AddAll inl names) ↔ x ∈ Names inl ∨ x ∈ names) ∧
  (NoDup names → (∀ x, x ∈ names → x ∉ Names inl) →
   Names (AddAll inl names) = (Names inl ++ names)%list).
Proof.
  revert inl. induction names as [|n names IH]; intros inl Hr.
  - simpl. split_and!.
    + done.
    + intros x. rewrite elem_of_nil. tauto.
    + intros _ _. by rewrite app_nil_r.
  - assert (Hr' : reachable (Add inl n).2) by (by constructor).
    destruct (IH _ Hr') as (Hpre & Hel & Hord). simpl. split_and!.
    + etrans; [apply (Add_prefix inl n) | exact Hpre].
    + intros x. apply (AddAll_elem inl (n :: names)). by apply reachable_wf.
    + intros Hnd Hnew. apply NoDup_cons in Hnd as [Hn Hnd].
      assert (Hv : nameMap inl !! n = None).
      { apply wf_absent; [by apply reachable_wf|]. apply Hnew. by left. }
      rewrite Hord; [| done |].
      * rewrite Add_absent by done. unfold Names. simpl. by rewrite <- app_assoc.
      * intros x Hx. rewrite Add_elem by (by apply reachable_wf).
        intros [Hin| ->]; [|done]. apply (Hnew x); [by right | done].
Qed.

Lemma AddAll_appends_witness :
  Names (AddAll Sample.index ["db:v2"; "web:v3"]) = ["app:v1"; "db:v2"; "web:v3"].
Proof.
  destruct (AddAll_appends Sample.index ["db:v2"; "web:v3"]) as (_ & _ & Hord).
  - apply reachable_AddAll. constructor.
  - apply Hord.
    + apply NoDup_ListNoDup. repeat constructor; simpl; intuition discriminate.
    + vm_compute. intros x Hx Hin. apply list_elem_of_In in Hx, Hin. simpl in *.
      intuition congruence.
Defined.

End name_index_more.

(** ** Identifiers in normal form *)

Section identifiers.
Import NameIndex FileStore.

#[local] Arguments String.append : simpl nomatch.

Lemma has_colon_dec s : has_colon s ∨ ¬ has_colon s.
Proof.
  unfold has_colon. destruct (In_dec ascii_dec ":"%char (list_ascii_of_string s)); auto.
Qed.

Lemma Write_id_colon name : has_colon name → Write_id name = name.
Proof.
  intros Hc. destruct (has_colon_split name Hc) as (r & t & -> & Hr).
  by apply Write_id_full.
Qed.

(** X5. The identifier [Write] registers is the name in full: the name
    itself when it has a colon, the name with [:latest] otherwise. Its
    repository part has no colon, it parses to the same repository and tag
    as the name, and [Get] builds the same path for both, so every
    identifier [List] returns addresses the file it was written to. *)
Theorem Write_id_normal name :
  ¬ has_colon (parseImageName name).1 ∧
  (has_colon name → Write_id name = name) ∧
  (¬ has_colon name → Write_id name = name ++ ":latest") ∧
  parseImageName (Write_id name) = parseImageName name ∧
  ∀ fis, Get_path fis (Write_id name) = Get_path fis name.
Proof.
  assert (Hparse : parseImageName (Write_id name) = parseImageName name).
  { destruct (has_colon_dec name) as [Hc|Hno].
    - by rewrite Write_id_colon.
    - rewrite (Write_id_default name Hno), (parseImageName_no_colon name Hno).
      by apply (parseImageName_colon name "latest"). }
  split_and!.
  - destruct (has_colon_dec name) as [Hc|Hno].
    + destruct (has_colon_split name Hc) as (r & t & -> & Hr).
      rewrite parseImageName_colon by done. exact Hr.
    + rewrite parseImageName_no_colon by done. exact Hno.
  - apply Write_id_colon.
  - apply Write_id_default.
  - exact Hparse.
  - intros fis. unfold Get_path. by rewrite Hparse.
Qed.

Lemma Write_id_normal_witness :
  has_colon "lib:3.2" ∧ Write_id "lib:3.2" = "lib:3.2" ∧
  ¬ has_colon "redis" ∧ Write_id "redis" = "redis:latest".
Proof.
  assert (H1 : has_colon "lib:3.2") by (unfold has_colon; simpl; tauto).
  assert (H2 : ¬ has_colon "redis") by (unfold has_colon; simpl; intuition discriminate).
  destruct (Write_id_normal "lib:3.2") as (_ & Hfull & _).
  destruct (Write_id_normal "redis") as (_ & _ & Hdefault & _).
  split_and!; [exact H1 | exact (Hfull H1) | exact H2 | exact (Hdefault H2)].
Defined.

End identifiers.

(** ** The filesystem backend: overwriting, failed copies, deletion *)

Section file_store_more.
Import NameIndex FileStore FileDelete.

#[local] Arguments String.append : simpl nomatch.

Implicit Types (fis : FileImageStorage) (name : string) (fs : OS.FS)
  (q : list string).

Lemma mkdir_all_frame (m : gmap (list string) OS.node) at_dir todo q n :
  m !! q = Some n → (OS.mkdir_all m at_dir todo).2 !! q = Some n.
Proof.
  revert m at_dir. induction todo as [|c todo IH]; intros m at_dir Hq; simpl; [done|].
  destruct (m !! (at_dir ++ [c])%list) as [[|content]|] eqn:Hp; simpl.
  - by apply IH.
  - done.
  - apply IH. rewrite lookup_insert_ne; [done|]. intros <-. congruence.
Qed.



Lemma append_file_frame (m : gmap (list string) OS.node) f bytes q :
  q ≠ f → OS.append_file m f bytes !! q = m !! q.
Proof.
  intros Hq. unfold OS.append_file.
  destruct (m !! f) as [[|c]|]; try done. by rewrite lookup_insert_ne.
Qed.

Lemma Copy_to_file_frame f reader fs q :
  q ≠ f → OS.nodes (OS.Copy_to_file f reader fs).2 !! q = OS.nodes fs !! q.
Proof.
  intros Hq. unfold OS.Copy_to_file.
  destruct (_ <=? _)%nat; simpl; by apply append_file_frame.
Qed.



(** [Get] reads the file at the path [Write] wrote to. *)
Lemma Get_reads_file fis fis' name writer fs' c :
  Dir fis' = Dir fis →
  OS.components (Write_path fis name) ≠ [] →
  HasSuffix (Write_path fis name) "/" = false →
  OS.nodes fs' !! OS.components (Write_path fis name) = Some (OS.NFile c) →
  Get fis' name writer fs' = Writer_write writer c.
Proof.
  intros Hdir Hne Hs Hfile. rewrite Get_steps, Get_path_Write_path.
  replace (Write_path fis' name) with (Write_path fis name)
    by (unfold Write_path, Write_dir; by rewrite Hdir).
  unfold OS.Open.
  destruct (String.eqb_spec (Write_path fis name) "") as [Hempty|_].
  { by rewrite Hempty in Hne. }
  cbv zeta. rewrite (stat_nonempty fs' _ Hne), Hfile, Hs.
  unfold OS.Copy_from_file. by rewrite (stat_nonempty fs' _ Hne), Hfile.
Qed.

Lemma Get_after_Write fis name reader fs fis' fs' writer :
  Write fis name reader fs = (None, fis', fs') →
  Get fis' name writer fs' = Writer_write writer (rdata reader).
Proof.
  rewrite Write_steps. intros Hw.
  destruct (OS.MkdirAll _ fs) as [[e1|] fs1]; [done|].
  destruct (OS.Create _ fs1) as [[f|e2] fs2] eqn:Hc; [|done].
  destruct (OS.Copy_to_file f reader fs2) as [[e3|] fs3] eqn:Hcopy; [done|].
  injection Hw as <- <-.
  apply Create_ok in Hc as (Hf & Hne & Hs & Hnodes).
  apply (Get_reads_file fis); try done; [by rewrite <- Hf|].
  rewrite <- Hf. apply (Copy_to_file_ok f reader fs2 fs3 []); [done|].
  rewrite Hnodes. apply lookup_insert_eq.
Qed.

(** X7. Once [Write] has created its file the old content is gone,
    whatever the copy does next: the file holds the bytes of the payload
    the volume had room for, all of them exactly when [Write] can succeed,
    and that is what a later [Get] delivers. [Write] returns [nil] exactly
    when the stream ended without error and fitted on the volume; a failed
    [Write] leaves the shortened file behind and the index as it was. *)
Theorem Write_overwrites fis name reader fs fs1 f fs2 :
  OS.MkdirAll (Write_dir fis name) fs = (None, fs1) →
  OS.Create (Write_path fis name) fs1 = (inl f, fs2) →
  ∃ err fis' fs',
    Write fis name reader fs = (err, fis', fs') ∧
    OS.nodes fs' !! f = Some (OS.NFile (take (OS.free fs2) (rdata reader))) ∧
    (err = None ↔ rerr reader = None ∧ (length (rdata reader) ≤ OS.free fs2)%nat) ∧
    (err ≠ None → fis' = fis) ∧
    ∀ writer, Get fis' name writer fs'
              = Writer_write writer (take (OS.free fs2) (rdata reader)).
Proof.
  intros Hm Hc. rewrite Write_steps, Hm, Hc.
  apply Create_ok in Hc as (Hf & Hne & Hs & Hnodes).
  assert (Hnew : OS.nodes fs2 !! f = Some (OS.NFile [])).
  { rewrite Hnodes. apply lookup_insert_eq. }
  unfold OS.Copy_to_file, OS.append_file. rewrite Hnew.
  destruct (Nat.leb_spec (length (rdata reader)) (OS.free fs2)) as [Hle|Hgt].
  - rewrite take_ge by lia.
    destruct (rerr reader) as [e|] eqn:He.
    + eexists _, _, _. split; [done|]. simpl. rewrite lookup_insert_eq.
      split_and!; try done.
      * split; [done | by intros [? _]].
      * intros writer. apply (Get_reads_file fis); try done; [by rewrite <- Hf..|].
        rewrite <- Hf. simpl. by rewrite lookup_insert_eq.
    + eexists _, _, _. split; [done|]. simpl. rewrite lookup_insert_eq.
      split_and!; try done.
      intros writer. apply (Get_reads_file fis); try done; [by rewrite <- Hf..|].
      rewrite <- Hf. simpl. by rewrite lookup_insert_eq.
  - eexists _, _, _. split; [done|]. simpl. rewrite lookup_insert_eq.
    split_and!; try done.
    + split; [done | intros [_ ?]; lia].
    + intros writer. apply (Get_reads_file fis); try done; [by rewrite <- Hf..|].
      rewrite <- Hf. simpl. by rewrite lookup_insert_eq.
Qed.

End file_store_more.

Section file_delete.
Import NameIndex FileStore FileDelete.

#[local] Arguments String.append : simpl nomatch.

Implicit Types (fis : FileImageStorage) (name : string) (fs : OS.FS).

Lemma Write_overwrites_witness :
  ∃ err fis' fs',
    Write Sample.fis "app:v1" Sample.broken Sample.disk = (err, fis', fs') ∧
    OS.nodes fs' !! ["data"; "app"; "v1"] = Some (OS.NFile [Byte.x68; Byte.x65]) ∧
    err ≠ None ∧ fis' = Sample.fis.
Proof.
  edestruct (Write_overwrites Sample.fis "app:v1" Sample.broken Sample.disk)
    as (err & fis' & fs' & Hw & Hnode & Hiff & Hfis & _);
    [vm_compute; reflexivity ..|].
  assert (Herr : err ≠ None).
  { intros ->. by destruct (proj1 Hiff eq_refl). }
  exists err, fis', fs'. split_and!; [exact Hw | exact Hnode | exact Herr | exact (Hfis Herr)].
Defined.

Lemma Delete_path_Write_path fis name : Delete_path fis name = Write_path fis name.
Proof. rewrite <- Get_path_Write_path. reflexivity. Qed.

Lemma Delete_steps fis name fs :
  Delete fis name fs =
    match OSRemove.Remove (Delete_path fis name) fs with
    | (None, fs1) =>
        (None,
         {| Dir := Dir fis;
            images := (NameIndex.Remove (images fis) (Write_id name)).2 |},
         fs1)
    | (Some err, fs1) => (Some err, fis, fs1)
    end.
Proof.
  unfold Delete, Delete_path, Write_id. by destruct (parseImageName name).
Qed.




(** X9. After a [Write] that returned [nil], [Delete] of the same
    identifier returns [nil] and the file is gone; when the identifier
    was not in the index before the [Write], the backend's index is again
    exactly what it was before. *)
Theorem Write_then_Delete fis name reader fs fis1 fs1 :
  Write fis name reader fs = (None, fis1, fs1) →
  ∃ fis2 fs2,
    Delete fis1 name fs1 = (None, fis2, fs2) ∧
    OS.nodes fs2 !! OS.components (Write_path fis name) = None ∧
    (reachable (images fis) → Write_id name ∉ Names (images fis) → fis2 = fis).
Proof.
  rewrite Write_steps. intros Hw.
  destruct (OS.MkdirAll _ fs) as [[e1|] fs0]; [done|].
  destruct (OS.Create _ fs0) as [[f|e2] fs0'] eqn:Hc; [|done].
  destruct (OS.Copy_to_file f reader fs0') as [[e3|] fs3] eqn:Hcopy; [done|].
  injection Hw as <- <-.
  apply Create_ok in Hc as (Hf & Hne & Hs & Hnodes).
  assert (Hfile : OS.nodes fs3 !! f = Some (OS.NFile (rdata reader))).
  { apply (Copy_to_file_ok f reader fs0' fs3 []); [done|].
    rewrite Hnodes. apply lookup_insert_eq. }
  rewrite Delete_steps, Delete_path_Write_path.
  change (Write_path _ name) with (Write_path fis name).
  unfold OSRemove.Remove. rewrite <- Hf.
  destruct (String.eqb_spec (Write_path fis name) "") as [Hempty|_].
  { rewrite Hempty in Hf. by subst f. }
  destruct f as [|c p]; [done|]. rewrite Hfile, Hs.
  eexists _, _. split; [done|]. simpl. split; [apply lookup_delete_eq|].
  intros Hr Hnew. rewrite Remove_after_Add; [by destruct fis | by apply reachable_wf | done].
Qed.

Lemma Write_then_Delete_witness :
  ∃ fs2,
    Delete (Write Sample.fis "db:v2" Sample.hello Sample.disk).1.2 "db:v2"
           (Write Sample.fis "db:v2" Sample.hello Sample.disk).2
    = (None, Sample.fis, fs2).
Proof.
  pose (r := Write Sample.fis "db:v2" Sample.hello Sample.disk).
  assert (Hw : Write Sample.fis "db:v2" Sample.hello Sample.disk = (None, r.1.2, r.2))
    by (vm_compute; reflexivity).
  destruct (Write_then_Delete _ _ _ _ _ _ Hw) as (fis2 & fs2 & Hd & _ & Hsame).
  exists fs2. rewrite Hsame in Hd; [exact Hd | |].
  - apply reachable_AddAll. constructor.
  - vm_compute. intros H. apply list_elem_of_In in H. simpl in H. intuition discriminate.
Defined.


(** X10. [Delete] does not ask whether its path names a file: when it
    names a directory, [Delete] removes the directory if nothing is below
    it and returns [nil], and fails with the not-empty error, changing
    nothing, otherwise. *)
Theorem Delete_directory fis name fs :
  OS.components (Delete_path fis name) ≠ [] →
  OS.nodes fs !! OS.components (Delete_path fis name) = Some OS.NDir →
  (OSRemove.has_below (OS.nodes fs) (OS.components (Delete_path fis name)) = false →
   ∃ fis' fs', Delete fis name fs = (None, fis', fs') ∧
     OS.nodes fs' = delete (OS.components (Delete_path fis name)) (OS.nodes fs)) ∧
  (OSRemove.has_below (OS.nodes fs) (OS.components (Delete_path fis name)) = true →
   Delete fis name fs
   = (Some (OSRemove.RemovePathError (Delete_path fis name) OSRemove.ENOTEMPTY), fis, fs)).
Proof.
  intros Hp Hdir. rewrite Delete_steps. unfold OSRemove.Remove.
  destruct (String.eqb_spec (Delete_path fis name) "") as [Hempty|_].
  { by rewrite Hempty in Hp. }
  destruct (OS.components (Delete_path fis name)) as [|c p]; [done|].
  rewrite Hdir. split; intros ->; [|done].
  by eexists _, _.
Qed.

Lemma Delete_directory_witness :
  ∃ fis' fs',
    Delete Sample.fis "tmp:"
      (OS.MkdirAll "/data/tmp" (Write Sample.fis "app:v1" Sample.hello Sample.disk).2).2
    = (None, fis', fs') ∧
    OS.nodes fs' !! ["data"; "tmp"] = None ∧
    Delete Sample.fis "app:" (Write Sample.fis "app:v1" Sample.hello Sample.disk).2
    = (Some (OSRemove.RemovePathError "/data/app/" OSRemove.ENOTEMPTY), Sample.fis,
       (Write Sample.fis "app:v1" Sample.hello Sample.disk).2).
Proof.
  destruct (Delete_directory Sample.fis "tmp:"
      (OS.MkdirAll "/data/tmp" (Write Sample.fis "app:v1" Sample.hello Sample.disk).2).2)
    as [Hempty _]; [vm_compute; discriminate | vm_compute; reflexivity |].
  destruct Hempty as (fis' & fs' & Hd & Hnodes); [vm_compute; reflexivity|].
  exists fis', fs'. split; [exact Hd|]. split.
  - rewrite Hnodes. apply lookup_delete_eq.
  - apply (Delete_directory Sample.fis "app:"
             (Write Sample.fis "app:v1" Sample.hello Sample.disk).2);
      [vm_compute; discriminate | vm_compute; reflexivity ..].
Defined.

End file_delete.

(** ** The document-store backend: what the operations do to store and index *)

Section mongo_store_more.
Import NameIndex Mgo MongoStore MongoView.

Implicit Types (mis : MongoImageStorage) (name : string) (srv : Server).

Lemma session_closed (s : nat) (X : gset nat) :
  bool_decide (s ∈ ({[s]} ∪ X) ∖ {[s]}) = false.
Proof. apply bool_decide_eq_false, closed_not_open. Qed.

Lemma GridFS_Open_missing name srv :
  answering srv = true → name ∉ blob_names srv →
  GridFS_Open name srv = inr ErrNotFound.
Proof.
  intros Ha Hno. unfold GridFS_Open. rewrite Ha.
  destruct (List.find _ _) as [b|] eqn:Hfind; [|done].
  apply List.find_some in Hfind as [Hin Heq].
  apply String.eqb_eq in Heq. destruct Hno.
  apply list_elem_of_In, List.in_map_iff. exists b. split; [done|].
  by apply List.in_rev.
Qed.

Lemma GridFS_Open_found name srv file :
  GridFS_Open name srv = inl file →
  gf_name file = name ∧ (name, gf_data file) ∈ blobs srv.
Proof.
  unfold GridFS_Open. destruct (answering srv); [|done].
  destruct (List.find _ _) as [[n d]|] eqn:Hfind; [|done].
  intros [= <-]. apply List.find_some in Hfind as [Hin Heq].
  apply String.eqb_eq in Heq. simpl in *. subst n.
  split; [done|]. by apply list_elem_of_In, List.in_rev.
Qed.

Lemma find_first {A} (f : A → bool) l1 x l2 :
  (∀ y, y ∈ l1 → f y = false) → f x = true →
  List.find f (l1 ++ x :: l2) = Some x.
Proof.
  intros Hl1 Hx. induction l1 as [|y l1 IH]; simpl.
  - by rewrite Hx.
  - rewrite (Hl1 y) by (by left). apply IH. intros z Hz. apply Hl1. by right.
Qed.

(** X11. [Write] cannot store a new image: it opens the blob with
    [fs.Open], which only finds blobs that exist, so for an identifier the
    store does not hold it returns the not-found error, leaves the index
    as it was and closes its session; and whatever its outcome, the blobs
    of the store are afterwards what they were. *)
Theorem Mongo_Write_new_fails mis name reader srv :
  listening srv = true → answering srv = true →
  name ∉ blob_names srv →
  ∃ srv', Write mis name reader srv = (Return (Some ErrNotFound), mis, srv') ∧
          blobs srv' = blobs srv ∧
          leaked srv srv' = false.
Proof.
  intros Hl Ha Hno. unfold Write, createGridFS, Dial. rewrite Hl.
  rewrite GridFS_Open_missing by done.
  eexists. split; [done|]. split; [done|]. apply session_closed.
Qed.

Lemma Mongo_Write_new_fails_witness :
  ∃ srv', Write Sample.mis "db:v2" Sample.hello Sample.server
          = (Return (Some ErrNotFound), Sample.mis, srv') ∧
          blobs srv' = blobs Sample.server.
Proof.
  destruct (Mongo_Write_new_fails Sample.mis "db:v2" Sample.hello Sample.server)
    as (srv' & Hw & Hb & _); [reflexivity | reflexivity | |].
  - vm_compute. intros H. apply list_elem_of_In in H. simpl in H. intuition discriminate.
  - exists srv'. by split.
Defined.

(** X12. [Get] hands the sink the bytes of the blob of that name that
    was uploaded last, closes its session, and changes nothing in the
    store; it does not look at the index. *)
Theorem Mongo_Get_newest mis name writer srv older data newer :
  listening srv = true → answering srv = true →
  blobs srv = (older ++ (name, data) :: newer)%list →
  name ∉ map fst newer →
  ∃ srv', Get mis name writer srv = ((Writer_write writer data).1,
                                     (Writer_write writer data).2, srv') ∧
          blobs srv' = blobs srv ∧
          leaked srv srv' = false.
Proof.
  intros Hl Ha Hb Hnew. unfold Get, createGridFS, Dial. rewrite Hl.
  unfold GridFS_Open. simpl. rewrite Ha, Hb.
  rewrite rev_app_distr. simpl. rewrite <- app_assoc. simpl.
  rewrite (find_first _ (rev newer) (name, data) (rev older)).
  - simpl. unfold Copy_from_GridFile. simpl.
    destruct (Writer_write writer data) as [err writer1].
    eexists. split; [done|]. split; [done|]. apply session_closed.
  - intros [n d] Hin. simpl. apply eqb_neq. intros ->. apply Hnew.
    apply list_elem_of_In, List.in_map_iff. exists (name, d). split; [done|].
    apply List.in_rev. by apply list_elem_of_In.
  - apply String.eqb_refl.
Qed.

Lemma Mongo_Get_newest_witness :
  ∃ srv', Get Sample.mis "app:v1" Sample.sink Sample.server
          = (None, {| wbuf := [Byte.x68; Byte.x69]; wroom := None |}, srv').
Proof.
  destruct (Mongo_Get_newest Sample.mis "app:v1" Sample.sink Sample.server
              [] [Byte.x68; Byte.x69] [])
    as (srv' & Hg & _); [reflexivity | reflexivity | reflexivity | |].
  - simpl. apply not_elem_of_nil.
  - exists srv'. exact Hg.
Defined.

Lemma blob_names_filter name srv x :
  x ∈ map fst (List.filter (λ b, negb (String.eqb b.1 name)) (blobs srv))
  ↔ x ∈ blob_names srv ∧ x ≠ name.
Proof.
  unfold blob_names. rewrite !list_elem_of_In, !List.in_map_iff. split.
  - intros ([n d] & <- & Hin). apply List.filter_In in Hin as [Hin Hne].
    apply negb_true_iff, eqb_neq in Hne. split; [|done]. by exists (n, d).
  - intros [([n d] & <- & Hin) Hne]. exists (n, d). split; [done|].
    apply List.filter_In. split; [done|]. by apply negb_true_iff, eqb_neq.
Qed.

(** X13. On a server that answers, [Remove] returns [nil] whether or not
    the store held the identifier; afterwards neither the store nor the
    index holds it and every other blob name and identifier is kept. On a
    server that accepts the connection but does not answer, [Remove]
    returns the error and changes neither. Either way its session is
    closed. *)
Theorem Mongo_Remove_result mis name srv :
  reachable (images mis) → listening srv = true →
  ∃ err mis' srv',
    MongoStore.Remove mis name srv = (err, mis', srv') ∧
    leaked srv srv' = false ∧
    (answering srv = true →
       err = None ∧
       (∀ x, x ∈ blob_names srv' ↔ x ∈ blob_names srv ∧ x ≠ name) ∧
       (∀ x, x ∈ Names (images mis') ↔ x ∈ Names (images mis) ∧ x ≠ name)) ∧
    (answering srv = false → err ≠ None ∧ mis' = mis ∧ blobs srv' = blobs srv).
Proof.
  intros Hr Hl. unfold MongoStore.Remove, createGridFS, Dial. rewrite Hl.
  unfold GridFS_Remove. simpl. destruct (answering srv) eqn:Ha.
  - eexists _, _, _. split; [done|]. split; [apply session_closed|].
    split; [|done]. intros _. split; [done|]. split.
    + intros x. apply blob_names_filter.
    + intros x. apply Remove_elem. by apply reachable_wf.
  - eexists _, _, _. split; [done|]. split; [apply session_closed|].
    split; [done|]. by intros _.
Qed.

Lemma Mongo_Remove_result_witness :
  ∃ mis' srv',
    MongoStore.Remove Sample.mis "app:v1" Sample.server = (None, mis', srv') ∧
    ("app:v1" ∉ Names (images mis')) ∧ ("app:v1" ∉ blob_names srv').
Proof.
  destruct (Mongo_Remove_result Sample.mis "app:v1" Sample.server)
    as (err & mis' & srv' & Hrm & _ & Hok & _).
  - apply reachable_AddAll. constructor.
  - reflexivity.
  - destruct (Hok eq_refl) as (-> & Hb & Hn).
    exists mis', srv'. split; [exact Hrm|]. split.
    + intros Hin. by apply Hn in Hin as [_ ?].
    + intros Hin. by apply Hb in Hin as [_ ?].
Defined.

(** X14. The startup scan: built on a server that is up,
    [NewMongoImageStorage] lists exactly the names of the stored blobs,
    each once however many blobs carry it, and has closed its session;
    built on a server that cannot be reached it has an empty index, the
    error of the scan being dropped. *)
Theorem NewMongoImageStorage_scan url db fsPrefix srv :
  (listening srv = true → answering srv = true →
     consistent (NewMongoImageStorage url db fsPrefix srv).1
                (NewMongoImageStorage url db fsPrefix srv).2 ∧
     NoDup (Names (images (NewMongoImageStorage url db fsPrefix srv).1)) ∧
     blobs (NewMongoImageStorage url db fsPrefix srv).2 = blobs srv ∧
     leaked srv (NewMongoImageStorage url db fsPrefix srv).2 = false) ∧
  (listening srv = false →
     Names (images (NewMongoImageStorage url db fsPrefix srv).1) = [] ∧
     (NewMongoImageStorage url db fsPrefix srv).2 = srv).
Proof.
  unfold NewMongoImageStorage, loadImageNames, createGridFS, Dial. split.
  - intros Hl Ha. rewrite Hl. simpl. unfold GridFS_Find_all. simpl. rewrite Ha.
    assert (Hwf : wf NewImageNameList) by (apply reachable_wf; constructor).
    split_and!; try done.
    + intros x. simpl. rewrite AddAll_elem by done. unfold blob_names. simpl.
      split; [intros [Hx|Hx]; [by apply elem_of_nil in Hx | done] | by right].
    + apply (AddAll_wf _ _ Hwf).
    + apply session_closed.
  - intros Hl. by rewrite Hl.
Qed.

Lemma NewMongoImageStorage_scan_witness :
  consistent (NewMongoImageStorage "mongodb://localhost" "images" "fs" Sample.server).1
             (NewMongoImageStorage "mongodb://localhost" "images" "fs" Sample.server).2.
Proof.
  by apply (NewMongoImageStorage_scan "mongodb://localhost" "images" "fs" Sample.server).
Defined.

(** X15. [Write] and [Remove] keep index and store in step: when the
    index lists exactly the names of the stored blobs before the call, it
    does so after it, whatever the state of the server and the outcome. *)
Theorem Mongo_consistent_kept mis name reader srv :
  reachable (images mis) → consistent mis srv →
  consistent (Write mis name reader srv).1.2 (Write mis name reader srv).2 ∧
  consistent (MongoStore.Remove mis name srv).1.2 (MongoStore.Remove mis name srv).2.
Proof.
  intros Hr Hcons. pose proof (reachable_wf _ Hr) as Hwf. split.
  - unfold Write, createGridFS, Dial. destruct (listening srv); [|done]. simpl.
    destruct (GridFS_Open name _) as [file|e] eqn:Hopen; [|done].
    apply GridFS_Open_found in Hopen as [_ Hin]. simpl in Hin.
    destruct (Copy_to_GridFile file reader) as [[e|]|msg]; try done.
    intros x. unfold blob_names. simpl. rewrite Add_elem by done.
    rewrite (Hcons x). unfold blob_names. split; [|by left].
    intros [Hx| ->]; [done|].
    apply list_elem_of_In, List.in_map_iff. exists (name, gf_data file).
    split; [done|]. by apply list_elem_of_In.
  - unfold MongoStore.Remove, createGridFS, Dial. destruct (listening srv); [|done].
    unfold GridFS_Remove. simpl. destruct (answering srv); [|done]. simpl.
    intros x. simpl. rewrite Remove_elem by done. rewrite (Hcons x).
    symmetry. apply blob_names_filter.
Qed.

Lemma Mongo_consistent_kept_witness :
  consistent (MongoStore.Remove Sample.mis "app:v1" Sample.server).1.2
             (MongoStore.Remove Sample.mis "app:v1" Sample.server).2.
Proof.
  apply (Mongo_consistent_kept Sample.mis "app:v1" Sample.hello Sample.server).
  - apply reachable_AddAll. constructor.
  - intros x. change (Names (images Sample.mis)) with ["app:v1"].
    by change (blob_names Sample.server) with ["app:v1"].
Defined.

End mongo_store_more.

(** ** The web layer *)

Section web.
Import Web.

#[local] Arguments String.append : simpl nomatch.

Lemma no_slash_cons c s : no_slash (String c s) ↔ c ≠ "/"%char ∧ no_slash s.
Proof. unfold no_slash. simpl. tauto. Qed.

Lemma split_path_no_slash b cur :
  no_slash b → OS.split_path b cur = [cur ++ b].
Proof.
  revert cur. induction b as [|c b IH]; intros cur Hb; simpl.
  - by rewrite str_app_nil_r.
  - apply no_slash_cons in Hb as [Hc Hb].
    destruct (Ascii.eqb_spec c "/"); [done|].
    rewrite IH by done. by rewrite str_app_assoc.
Qed.

Lemma split_path_app q b cur :
  OS.split_path (q ++ "/" ++ b) cur
  = (OS.split_path q cur ++ OS.split_path b "")%list.
Proof.
  revert cur. induction q as [|c q IH]; intros cur; simpl; [done|].
  destruct (Ascii.eqb c "/"); simpl; by rewrite IH.
Qed.

Lemma Split_slash_last q b :
  no_slash b → Split_slash (q ++ "/" ++ b) = (Split_slash q ++ [b])%list.
Proof.
  intros Hb. unfold Split_slash. rewrite split_path_app.
  by rewrite (split_path_no_slash b "").
Qed.

Lemma Split_slash_last_two q repo tag :
  no_slash repo → no_slash tag →
  Split_slash (q ++ "/" ++ repo ++ "/" ++ tag) = (Split_slash q ++ [repo; tag])%list.
Proof.
  intros Hr Ht. rewrite <- !str_app_assoc.
  rewrite (str_app_assoc _ "/" tag), Split_slash_last by done.
  rewrite (str_app_assoc _ "/" repo), Split_slash_last by done.
  by rewrite <- app_assoc.
Qed.

Section any_backend.
Context {S W : Type} `{StorageOps S W}.

Lemma get_handler_last (st : S) req rw (w : W) q name :
  no_slash name → URL_Path req = q ++ "/" ++ name →
  get_handler st req rw w =
    let '(_, rw', w') := storage_Get st name rw w in Done rw' st w'.
Proof.
  intros Hn Hp. unfold get_handler. rewrite Hp, Split_slash_last by done.
  rewrite length_app. simpl.
  replace (length (Split_slash q) + 1 - 1) with (length (Split_slash q) + 0) by lia.
  by rewrite lookup_app_r, Nat.add_comm, Nat.add_sub by lia.
Qed.

Lemma save_handler_last_two (st : S) req rw (w : W) q repo tag :
  no_slash repo → no_slash tag →
  Method req = "POST" → URL_Path req = q ++ "/" ++ repo ++ "/" ++ tag →
  save_handler st req rw w =
    let '(err, st', w') := storage_Write st (repo ++ ":" ++ tag) (Body req) w in
    Done (respond rw match err with
                     | None => "save image successfully"
                     | Some _ => "fail to save image"
                     end) st' w'.
Proof.
  intros Hr Ht Hm Hp. unfold save_handler.
  rewrite Hm, Hp, Split_slash_last_two by done. simpl.
  rewrite length_app. simpl.
  destruct (Nat.ltb_spec (length (Split_slash q) + 2) 2) as [|_]; [lia|].
  replace (length (Split_slash q) + 2 - 2) with (length (Split_slash q) + 0) by lia.
  replace (length (Split_slash q) + 2 - 1) with (length (Split_slash q) + 1) by lia.
  rewrite !lookup_app_r by lia.
  replace (length (Split_slash q) + 0 - length (Split_slash q)) with 0 by lia.
  replace (length (Split_slash q) + 1 - length (Split_slash q)) with 1 by lia.
  simpl. destruct (storage_Write st _ _ w) as [[[e|] st'] w']; done.
Qed.

(** X16. The save handler stores a POST to a path ending in
    [/repo/tag] under the identifier [repo:tag], whatever precedes those
    two components, and answers with the success text exactly when the
    backend's [Write] returned [nil], with the failure text otherwise. A
    request with another method changes nothing and gets no answer; a
    POST to a path without a slash makes the handler index out of range. *)
Theorem save_handler_routes (st : S) req rw (w : W) :
  (∀ q repo tag, no_slash repo → no_slash tag →
     Method req = "POST" → URL_Path req = q ++ "/" ++ repo ++ "/" ++ tag →
     save_handler st req rw w =
       let '(err, st', w') := storage_Write st (repo ++ ":" ++ tag) (Body req) w in
       Done (respond rw match err with
                        | None => "save image successfully"
                        | Some _ => "fail to save image"
                        end) st' w') ∧
  (Method req ≠ "POST" → save_handler st req rw w = Done rw st w) ∧
  (Method req = "POST" → no_slash (URL_Path req) →
     save_handler st req rw w = IndexPanic).
Proof.
  split_and!.
  - intros q repo tag. apply save_handler_last_two.
  - intros Hm. unfold save_handler. by apply eqb_neq in Hm as ->.
  - intros Hm Hp. unfold save_handler, Split_slash.
    by rewrite Hm, (split_path_no_slash _ "" Hp).
Qed.

(** X17. The get handler asks the backend for the last component of the
    path and nothing else of it: a GET of any path ending in [/name]
    streams [Get(name)] into the response, and the error [Get] returns is
    dropped. *)
Theorem get_handler_routes (st : S) req rw (w : W) q name :
  no_slash name → URL_Path req = q ++ "/" ++ name →
  get_handler st req rw w =
    Done (storage_Get st name rw w).1.2 st (storage_Get st name rw w).2.
Proof.
  intros Hn Hp. rewrite (get_handler_last st req rw w q name Hn Hp).
  by destruct (storage_Get st name rw w) as [[e rw'] w'].
Qed.

End any_backend.

Lemma no_slash_app s t : no_slash s → no_slash t → no_slash (s ++ t).
Proof.
  intros Hs Ht. induction s as [|c s IH]; simpl; [done|].
  apply no_slash_cons in Hs as [Hc Hs]. apply no_slash_cons. split; [done|].
  by apply IH.
Qed.

(** X18. Through the handlers, on the filesystem backend: when a POST
    to [.../repo/tag] is answered with success, a GET of [.../repo:tag]
    answers with exactly the bytes that were posted. *)
Theorem save_then_get fis fs reader rw q q' any repo tag fis1 fs1 rw' :
  no_slash repo → no_slash tag →
  FileStore.Write fis (repo ++ ":" ++ tag) reader fs = (None, fis1, fs1) →
  save_handler fis {| Method := "POST"; URL_Path := q ++ "/" ++ repo ++ "/" ++ tag;
                      Body := reader |} rw fs
  = Done (respond rw "save image successfully") fis1 fs1 ∧
  get_handler fis1 {| Method := "GET"; URL_Path := q' ++ "/" ++ repo ++ ":" ++ tag;
                      Body := any |} rw' fs1
  = Done (Writer_write rw' (rdata reader)).2 fis1 fs1.
Proof.
  intros Hr Ht Hw. split.
  - rewrite (save_handler_last_two fis
               {| Method := "POST"; URL_Path := q ++ "/" ++ repo ++ "/" ++ tag;
                  Body := reader |} rw fs q repo tag Hr Ht eq_refl eq_refl).
    cbn [storage_Write FileStorageOps Body]. by rewrite Hw.
  - assert (Hid : no_slash (repo ++ ":" ++ tag)).
    { apply no_slash_app; [done|]. apply no_slash_cons. split; [done|]. exact Ht. }
    rewrite (get_handler_last fis1
               {| Method := "GET"; URL_Path := q' ++ "/" ++ repo ++ ":" ++ tag;
                  Body := any |} rw' fs1 q' (repo ++ ":" ++ tag) Hid eq_refl).
    cbn [storage_Get FileStorageOps].
    rewrite (Get_after_Write fis _ reader fs fis1 fs1 rw' Hw).
    by destruct (Writer_write rw' (rdata reader)).
Qed.

End web.

Section web_witnesses.
Import Web.

Lemma no_slash_app_name : no_slash "app".
Proof. unfold no_slash. simpl. intuition discriminate. Qed.

Lemma no_slash_v1 : no_slash "v1".
Proof. unfold no_slash. simpl. intuition discriminate. Qed.

Lemma save_handler_routes_witness :
  save_handler Sample.fis
    {| Method := "POST"; URL_Path := "/image/save/app/v1"; Body := Sample.hello |}
    Sample.sink Sample.disk
  = let '(err, st', w') :=
      storage_Write Sample.fis "app:v1" Sample.hello Sample.disk in
    Done (respond Sample.sink match err with
                              | None => "save image successfully"
                              | Some _ => "fail to save image"
                              end) st' w'.
Proof.
  apply (proj1 (save_handler_routes Sample.fis
    {| Method := "POST"; URL_Path := "/image/save/app/v1"; Body := Sample.hello |}
    Sample.sink Sample.disk) "/image/save" "app" "v1");
    [exact no_slash_app_name | exact no_slash_v1 | reflexivity | reflexivity].
Defined.

Lemma get_handler_routes_witness :
  get_handler Sample.fis
    {| Method := "GET"; URL_Path := "/image/get/v1"; Body := Sample.hello |}
    Sample.sink Sample.disk
  = Done (storage_Get Sample.fis "v1" Sample.sink Sample.disk).1.2 Sample.fis
         (storage_Get Sample.fis "v1" Sample.sink Sample.disk).2.
Proof.
  apply (get_handler_routes Sample.fis
    {| Method := "GET"; URL_Path := "/image/get/v1"; Body := Sample.hello |}
    Sample.sink Sample.disk "/image/get" "v1");
    [exact no_slash_v1 | reflexivity].
Defined.

Lemma save_then_get_witness :
  ∃ fis1 fs1,
    save_handler Sample.fis
      {| Method := "POST"; URL_Path := "/image/save/app/v1"; Body := Sample.hello |}
      Sample.sink Sample.disk
    = Done (respond Sample.sink "save image successfully") fis1 fs1 ∧
    get_handler fis1
      {| Method := "GET"; URL_Path := "/image/get/app:v1"; Body := Sample.broken |}
      Sample.sink fs1
    = Done {| wbuf := rdata Sample.hello; wroom := None |} fis1 fs1.
Proof.
  pose (r := FileStore.Write Sample.fis "app:v1" Sample.hello Sample.disk).
  assert (Hw : FileStore.Write Sample.fis ("app" ++ ":" ++ "v1") Sample.hello Sample.disk
               = (None, r.1.2, r.2)) by (vm_compute; reflexivity).
  exists r.1.2, r.2.
  exact (save_then_get Sample.fis Sample.disk Sample.hello Sample.sink
           "/image/save" "/image/get" Sample.broken "app" "v1" r.1.2 r.2 Sample.sink
           no_slash_app_name no_slash_v1 Hw).
Defined.

End web_witnesses.

(** ** The startup scan of the filesystem backend *)

Section file_scan.
Import NameIndex FileStore OSReadDir FileScan Web.

#[local] Arguments String.append : simpl nomatch.

Implicit Types (fs : OS.FS) (p k : list string) (e : FileInfo).

Lemma insert_entry_perm e (l : list FileInfo) : insert_entry e l ≡ₚ e :: l.
Proof.
  induction l as [|x l IH]; simpl; [done|].
  destruct (String.leb (Name e) (Name x)); [done|].
  rewrite IH. apply perm_swap.
Qed.

Lemma sort_entries_perm (l : list FileInfo) : sort_entries l ≡ₚ l.
Proof.
  induction l as [|x l IH]; simpl; [done|].
  by rewrite insert_entry_perm, IH.
Qed.

Lemma entry_of_Some p k n e :
  entry_of p (k, n) = Some e ↔ k = (p ++ [Name e])%list ∧ IsDir e = is_dir n.
Proof.
  unfold entry_of. simpl. split.
  - destruct (last k) as [c|]; [|done]. case_bool_decide; [|done].
    intros [= <-]. by simpl.
  - intros [-> Hd]. rewrite last_snoc. rewrite bool_decide_eq_true_2 by done.
    destruct e as [c d]. simpl in *. by subst d.
Qed.

(** The entries of a directory are the nodes one step below it. *)
Lemma elem_of_entries (m : gmap (list string) OS.node) p e :
  e ∈ entries m p ↔ ∃ n, m !! (p ++ [Name e])%list = Some n ∧ IsDir e = is_dir n.
Proof.
  unfold entries. rewrite sort_entries_perm, list_elem_of_omap. split.
  - intros ([k n] & Hin & He). apply elem_of_map_to_list in Hin.
    apply entry_of_Some in He as [-> Hd]. eauto.
  - intros (n & Hm & Hd). exists ((p ++ [Name e])%list, n). split.
    + by apply elem_of_map_to_list.
    + by apply entry_of_Some.
Qed.

Lemma components_app a b :
  OS.components (a ++ "/" ++ b) = (OS.components a ++ OS.components b)%list.
Proof. unfold OS.components. by rewrite split_path_app, List.filter_app. Qed.

Lemma components_name c : c ≠ "" → no_slash c → OS.components c = [c].
Proof.
  intros Hne Hc. unfold OS.components. rewrite (split_path_no_slash c "" Hc).
  simpl. by apply eqb_neq in Hne as ->.
Qed.

Lemma components_leading_slash s : OS.components ("/" ++ s) = OS.components s.
Proof. reflexivity. Qed.

Lemma split_path_no_slash_elems s cur :
  no_slash cur → Forall no_slash (OS.split_path s cur).
Proof.
  revert cur. induction s as [|c s IH]; intros cur Hcur; simpl.
  - by constructor.
  - destruct (Ascii.eqb_spec c "/") as [->|Hc].
    + constructor; [done|]. apply IH. by intros [].
    + apply IH. apply no_slash_app; [done|].
      apply no_slash_cons. split; [done | by intros []].
Qed.

(** The components of any path are non-empty and have no slash. *)
Lemma components_elems s :
  Forall (λ c, c ≠ "" ∧ no_slash c) (OS.components s).
Proof.
  unfold OS.components. apply Forall_forall. intros c Hc.
  apply list_elem_of_In, List.filter_In in Hc as [Hin Hne].
  split.
  - apply negb_true_iff in Hne. by apply eqb_neq.
  - pose proof (split_path_no_slash_elems s "") as Hall.
    rewrite Forall_forall in Hall. apply Hall; [by intros []|].
    by apply list_elem_of_In.
Qed.

Lemma components_join (l : list string) :
  Forall (λ c, c ≠ "" ∧ no_slash c) l → OS.components (GoPath.join_slash l) = l.
Proof.
  induction l as [|c l IH]; intros Hl; [done|].
  apply Forall_cons in Hl as [[Hne Hc] Hl].
  destruct l as [|d l].
  - by apply components_name.
  - change (GoPath.join_slash (c :: d :: l))
      with (c ++ "/" ++ GoPath.join_slash (d :: l)).
    rewrite components_app, components_name, IH by done. done.
Qed.

Lemma join_slash_nonempty (l : list string) :
  l ≠ [] → Forall (λ c, c ≠ "" ∧ no_slash c) l → GoPath.join_slash l ≠ "".
Proof.
  destruct l as [|c l]; [done|]. intros _ Hl.
  apply Forall_cons in Hl as [[Hne _] _].
  destruct l; simpl; [done|]. destruct c; [done|]. done.
Qed.

(** [Clean] keeps a path without [.] and [..] elements, element by element. *)
Lemma clean_walk_plain (r : bool) (out todo : list string) :
  Forall (λ c, c ≠ "." ∧ c ≠ "..") todo →
  GoPath.clean_walk r out todo = (rev out ++ todo)%list.
Proof.
  revert out. induction todo as [|c todo IH]; intros out Hall; simpl.
  - by rewrite app_nil_r.
  - apply Forall_cons in Hall as [[H1 H2] Hall].
    apply eqb_neq in H1 as ->. apply eqb_neq in H2 as ->.
    rewrite IH by done. simpl. by rewrite <- app_assoc.
Qed.

Lemma components_Clean s :
  s ≠ "" → OS.components s ≠ [] →
  Forall (λ c, c ≠ "." ∧ c ≠ "..") (OS.components s) →
  GoPath.Clean s ≠ "" ∧ OS.components (GoPath.Clean s) = OS.components s.
Proof.
  intros Hne Hcomp Hplain. unfold GoPath.Clean.
  apply eqb_neq in Hne as ->. rewrite clean_walk_plain by done. cbn [rev app].
  destruct (OS.components s) as [|c l] eqn:Hs; [done|].
  pose proof (components_elems s) as Hel. rewrite Hs in Hel.
  pose proof (join_slash_nonempty (c :: l) ltac:(done) Hel) as Hj.
  destruct (GoPath.rooted s).
  - split; [done|]. by rewrite components_leading_slash, components_join.
  - change ("" ++ GoPath.join_slash (c :: l)) with (GoPath.join_slash (c :: l)).
    split; [done|]. by apply components_join.
Qed.

(** The sub-directory the scan reads for an entry of its root. *)
Lemma components_Join dir repo :
  dir ≠ "" → valid_name repo →
  Forall (λ c, c ≠ "." ∧ c ≠ "..") (OS.components dir) →
  GoPath.Join dir repo ≠ "" ∧
  OS.components (GoPath.Join dir repo) = (OS.components dir ++ [repo])%list.
Proof.
  intros Hdir (Hne & Hslash & Hdot & Hdotdot) Hplain. unfold GoPath.Join.
  pose proof Hdir as Hdir'. apply eqb_neq in Hdir' as ->.
  assert (Hc : OS.components (dir ++ "/" ++ repo) = (OS.components dir ++ [repo])%list).
  { by rewrite components_app, (components_name repo). }
  destruct (components_Clean (dir ++ "/" ++ repo)) as [H1 H2].
  - by destruct dir.
  - rewrite Hc. by destruct (OS.components dir).
  - rewrite Hc. apply Forall_app. split; [done|]. by repeat constructor.
  - split; [done|]. by rewrite H2.
Qed.

Lemma ReadDir_dir name fs :
  name ≠ "" → OS.stat fs (OS.components name) = Some OS.NDir →
  ReadDir name fs = inl (entries (OS.nodes fs) (OS.components name)).
Proof.
  intros Hne Hstat. unfold ReadDir, OS.Open.
  apply eqb_neq in Hne as ->. cbv zeta. by rewrite Hstat, Hstat.
Qed.

Lemma ReadDir_inl name fs l :
  ReadDir name fs = inl l →
  name ≠ "" ∧ OS.stat fs (OS.components name) = Some OS.NDir ∧
  l = entries (OS.nodes fs) (OS.components name).
Proof.
  unfold ReadDir, OS.Open.
  destruct (String.eqb_spec name "") as [|Hne]; [done|]. cbv zeta.
  destruct (OS.stat fs (OS.components name)) as [[|c]|] eqn:Hstat; [| |done].
  - rewrite Hstat. by intros [= <-].
  - destruct (HasSuffix name "/"); [done|]. by rewrite Hstat.
Qed.

Lemma versions_loop_wf idx repo vfs : wf idx → wf (versions_loop idx repo vfs).
Proof.
  revert idx. induction vfs as [|vf vfs IH]; intros idx Hwf; simpl; [done|].
  destruct (IsDir vf); simpl; apply IH; [done | by apply Add_wf].
Qed.

Lemma versions_loop_elem idx repo vfs x :
  wf idx →
  x ∈ Names (versions_loop idx repo vfs) ↔
  x ∈ Names idx ∨ ∃ vf, vf ∈ vfs ∧ IsDir vf = false ∧ x = repo ++ ":" ++ Name vf.
Proof.
  revert idx. induction vfs as [|vf vfs IH]; intros idx Hwf; simpl.
  - split; [by left|]. intros [?|(vf & Hin & _)]; [done|]. by apply elem_of_nil in Hin.
  - destruct (IsDir vf) eqn:Hd; simpl.
    + rewrite IH by done. split.
      * intros [?|(vf' & Hin & ?)]; [by left|]. right. exists vf'. split; [by right|done].
      * intros [?|(vf' & Hin & Hd' & Hx)]; [by left|].
        apply elem_of_cons in Hin as [->|Hin]; [congruence|]. right. eauto.
    + rewrite IH by (by apply Add_wf). rewrite Add_elem by done. split.
      * intros [[?| ->]|(vf' & Hin & ?)]; [by left | |].
        -- right. exists vf. split; [by left|done].
        -- right. exists vf'. split; [by right|done].
      * intros [?|(vf' & Hin & Hd' & Hx)]; [by left; left|].
        apply elem_of_cons in Hin as [->|Hin]; [by left; right|]. right. eauto.
Qed.

Lemma files_loop_wf dir fs idx files : wf idx → wf (files_loop dir fs idx files).
Proof.
  revert idx. induction files as [|file files IH]; intros idx Hwf; simpl; [done|].
  destruct (IsDir file); [|by apply IH].
  destruct (ReadDir _ fs); apply IH; [by apply versions_loop_wf | done].
Qed.

Lemma files_loop_elem dir fs idx files x :
  wf idx →
  x ∈ Names (files_loop dir fs idx files) ↔
  x ∈ Names idx ∨
  ∃ file vfs vf, file ∈ files ∧ IsDir file = true ∧
    ReadDir (GoPath.Join dir (Name file)) fs = inl vfs ∧
    vf ∈ vfs ∧ IsDir vf = false ∧ x = Name file ++ ":" ++ Name vf.
Proof.
  revert idx. induction files as [|file files IH]; intros idx Hwf; simpl.
  - split; [by left|]. intros [?|(f & ? & ? & Hin & _)]; [done|].
    by apply elem_of_nil in Hin.
  - destruct (IsDir file) eqn:Hd.
    + destruct (ReadDir (GoPath.Join dir (Name file)) fs) as [vfs|err] eqn:Hrd.
      * rewrite IH by (by apply versions_loop_wf).
        rewrite versions_loop_elem by done. split.
        -- intros [[?|(vf & Hin & Hvd & Hx)]|(f & l & vf & Hin & ?)]; [by left | |].
           ++ right. exists file, vfs, vf. split; [by left|done].
           ++ right. exists f, l, vf. split; [by right|done].
        -- intros [?|(f & l & vf & Hin & Hfd & Hrd' & Hvf & Hvd & Hx)]; [by left; left|].
           apply elem_of_cons in Hin as [->|Hin].
           ++ left. right. rewrite Hrd in Hrd'. injection Hrd' as <-. eauto.
           ++ right. exists f, l, vf. done.
      * rewrite IH by done. split.
        -- intros [?|(f & l & vf & Hin & ?)]; [by left|].
           right. exists f, l, vf. split; [by right|done].
        -- intros [?|(f & l & vf & Hin & Hfd & Hrd' & ?)]; [by left|].
           apply elem_of_cons in Hin as [->|Hin]; [congruence|].
           right. exists f, l, vf. done.
    + rewrite IH by done. split.
      * intros [?|(f & l & vf & Hin & ?)]; [by left|].
        right. exists f, l, vf. split; [by right|done].
      * intros [?|(f & l & vf & Hin & Hfd & ?)]; [by left|].
        apply elem_of_cons in Hin as [->|Hin]; [congruence|].
        right. exists f, l, vf. done.
Qed.

Lemma is_dir_true n : is_dir n = true ↔ n = OS.NDir.
Proof. destruct n; simpl; split; congruence. Qed.

Lemma is_dir_false n : is_dir n = false ↔ ∃ content, n = OS.NFile content.
Proof. destruct n; simpl; split; try congruence; [by intros [? ?] | eauto]. Qed.

(** What the scan finds is listed. *)
Lemma scan_lists dir fs repo tag content :
  dir ≠ "" → sane fs →
  Forall (λ c, c ≠ "." ∧ c ≠ "..") (OS.components dir) →
  OS.stat fs (OS.components dir) = Some OS.NDir →
  OS.nodes fs !! (OS.components dir ++ [repo])%list = Some OS.NDir →
  OS.nodes fs !! (OS.components dir ++ [repo; tag])%list = Some (OS.NFile content) →
  repo ++ ":" ++ tag ∈ Names (images (NewFileImageStorage dir fs)).
Proof.
  intros Hdir Hsane Hplain Hroot Hrepo Htag.
  assert (Hwf : wf NewImageNameList) by (apply reachable_wf; constructor).
  unfold NewFileImageStorage, loadImageNames. simpl.
  rewrite (ReadDir_dir dir fs Hdir Hroot). simpl.
  apply files_loop_elem; [done|]. right.
  assert (Hvalid : valid_name repo).
  { pose proof (Hsane _ _ Hrepo) as Hk. apply Forall_app in Hk as [_ Hk].
    by apply List.Forall_inv in Hk. }
  destruct (components_Join dir repo Hdir Hvalid Hplain) as [Hne Hcomp].
  exists {| Name := repo; IsDir := true |},
         (entries (OS.nodes fs) (OS.components dir ++ [repo])),
         {| Name := tag; IsDir := false |}.
  split_and!; try done.
  - apply elem_of_entries. by exists OS.NDir.
  - simpl. rewrite <- Hcomp. apply ReadDir_dir; [done|].
    rewrite Hcomp, stat_nonempty; [done|]. by destruct (OS.components dir).
  - apply elem_of_entries. exists (OS.NFile content). split; [|done].
    simpl. by rewrite <- app_assoc.
Qed.

(** X19. The startup scan. For a root path without [.] and [..]
    elements, on a file system whose entries have proper names,
    [NewFileImageStorage] returns a backend whose index lists, each once,
    exactly the identifiers [repo:tag] for which the root has a directory
    [repo] that has a file [tag]; files directly in the root and
    directories below a repository are left out. *)
Theorem NewFileImageStorage_scan dir fs :
  dir ≠ "" → sane fs →
  Forall (λ c, c ≠ "." ∧ c ≠ "..") (OS.components dir) →
  Dir (NewFileImageStorage dir fs) = dir ∧
  NoDup (Names (images (NewFileImageStorage dir fs))) ∧
  ∀ x, x ∈ Names (images (NewFileImageStorage dir fs)) ↔
    ∃ repo tag content,
      x = repo ++ ":" ++ tag ∧
      OS.stat fs (OS.components dir) = Some OS.NDir ∧
      OS.nodes fs !! (OS.components dir ++ [repo])%list = Some OS.NDir ∧
      OS.nodes fs !! (OS.components dir ++ [repo; tag])%list = Some (OS.NFile content).
Proof.
  intros Hdir Hsane Hplain.
  assert (Hwf : wf NewImageNameList) by (apply reachable_wf; constructor).
  unfold NewFileImageStorage, loadImageNames. simpl.
  destruct (ReadDir dir fs) as [files|err] eqn:Hrd; simpl.
  - apply ReadDir_inl in Hrd as (_ & Hroot & ->).
    split; [done|]. split; [by apply files_loop_wf|].
    intros x. rewrite files_loop_elem by done. split.
    + intros [Hx|(file & vfs & vf & Hin & Hfd & Hrd & Hvf & Hvd & ->)].
      { by apply elem_of_nil in Hx. }
      apply elem_of_entries in Hin as (n & Hn & Hdn).
      rewrite Hfd in Hdn. symmetry in Hdn. apply is_dir_true in Hdn as ->.
      assert (Hvalid : valid_name (Name file)).
      { pose proof (Hsane _ _ Hn) as Hk. apply Forall_app in Hk as [_ Hk].
        by apply List.Forall_inv in Hk. }
      destruct (components_Join dir (Name file) Hdir Hvalid Hplain) as [_ Hcomp].
      apply ReadDir_inl in Hrd as (_ & _ & ->). rewrite Hcomp in Hvf.
      apply elem_of_entries in Hvf as (n' & Hn' & Hdn').
      rewrite Hvd in Hdn'. symmetry in Hdn'. apply is_dir_false in Hdn' as [content ->].
      exists (Name file), (Name vf), content. split_and!; try done.
      by rewrite <- app_assoc in Hn'.
    + intros (repo & tag & content & -> & _ & Hrepo & Htag).
      pose proof (scan_lists dir fs repo tag content Hdir Hsane Hplain Hroot Hrepo Htag)
        as Hin.
      unfold NewFileImageStorage, loadImageNames in Hin. simpl in Hin.
      rewrite (ReadDir_dir dir fs Hdir Hroot) in Hin. simpl in Hin.
      by apply files_loop_elem in Hin.
  - split; [done|]. split; [constructor|].
    intros x. split; [by intros ?%elem_of_nil|].
    intros (repo & tag & content & _ & Hroot & _).
    by rewrite (ReadDir_dir dir fs Hdir Hroot) in Hrd.
Qed.

End file_scan.

Section file_scan_witness.
Import NameIndex FileStore OSReadDir FileScan Web.

Ltac prove_name :=
  unfold valid_name, no_slash; simpl; intuition discriminate.

Lemma sane_tree : sane SampleTree.tree.
Proof.
  intros k n Hk. apply elem_of_map_to_list in Hk.
  assert (Hall : Forall (λ kv : list string * OS.node, Forall valid_name kv.1)
                   (map_to_list (OS.nodes SampleTree.tree))).
  { let l := eval vm_compute in (map_to_list (OS.nodes SampleTree.tree)) in
    change (map_to_list (OS.nodes SampleTree.tree)) with l.
    repeat (constructor; [simpl; repeat (constructor; [prove_name|]); constructor|]).
    constructor. }
  rewrite Forall_forall in Hall. exact (Hall _ Hk).
Qed.

Lemma NewFileImageStorage_scan_witness :
  "repoA:tagX" ∈ Names (images (NewFileImageStorage "/data" SampleTree.tree)) ∧
  NoDup (Names (images (NewFileImageStorage "/data" SampleTree.tree))).
Proof.
  destruct (NewFileImageStorage_scan "/data" SampleTree.tree) as (_ & Hnd & Hel).
  - done.
  - exact sane_tree.
  - simpl. repeat constructor; discriminate.
  - split; [|exact Hnd].
    apply Hel. exists "repoA", "tagX", [Byte.x68; Byte.x69].
    split_and!; [reflexivity | reflexivity | by vm_compute | by vm_compute].
Defined.

End file_scan_witness.

(** ** Writing and restarting *)

Section restart.
Import NameIndex FileStore OSReadDir FileScan Web.

#[local] Arguments String.append : simpl nomatch.

(** After a successful [os.MkdirAll] every directory on the way exists. *)
Lemma mkdir_all_ok (m m' : gmap (list string) OS.node) at_dir todo i :
  OS.mkdir_all m at_dir todo = (None, m') →
  0 < i → (i ≤ length todo)%nat →
  m' !! (at_dir ++ take i todo)%list = Some OS.NDir.
Proof.
  revert m at_dir i. induction todo as [|c todo IH]; intros m at_dir i Hm Hi Hlen.
  { simpl in Hlen. lia. }
  simpl in Hm. destruct i as [|j]; [lia|]. simpl in Hlen.
  assert (Hstep : ∀ m0, m0 !! (at_dir ++ [c])%list = Some OS.NDir →
            OS.mkdir_all m0 (at_dir ++ [c]) todo = (None, m') →
            m' !! (at_dir ++ take (S j) (c :: todo))%list = Some OS.NDir).
  { intros m0 Hp Hrec. simpl.
    replace (at_dir ++ c :: take j todo)%list
      with ((at_dir ++ [c]) ++ take j todo)%list by (by rewrite <- app_assoc).
    destruct j as [|j'].
    - rewrite take_0, app_nil_r.
      pose proof (mkdir_all_frame m0 (at_dir ++ [c]) todo _ _ Hp) as Hf.
      by rewrite Hrec in Hf.
    - apply (IH m0); [done | lia | lia]. }
  destruct (m !! (at_dir ++ [c])%list) as [[|content]|] eqn:Hp; [|done|].
  - by apply (Hstep m).
  - apply (Hstep (<[(at_dir ++ [c])%list := OS.NDir]> m)); [|done].
    apply lookup_insert_eq.
Qed.

(** [os.MkdirAll] adds nodes on the way only. *)
Lemma mkdir_all_keys (m : gmap (list string) OS.node) at_dir todo k n :
  (OS.mkdir_all m at_dir todo).2 !! k = Some n →
  is_Some (m !! k) ∨ ∃ i, k = (at_dir ++ take i todo)%list.
Proof.
  revert m at_dir. induction todo as [|c todo IH]; intros m at_dir Hk; simpl in Hk.
  { left. eauto. }
  assert (Hstep : ∀ m0, (∀ k', is_Some (m0 !! k') →
                           is_Some (m !! k') ∨ k' = (at_dir ++ [c])%list) →
            (OS.mkdir_all m0 (at_dir ++ [c]) todo).2 !! k = Some n →
            is_Some (m !! k) ∨ ∃ i, k = (at_dir ++ take i (c :: todo))%list).
  { intros m0 Hm0 Hrec. destruct (IH m0 _ Hrec) as [Hin|[i ->]].
    - destruct (Hm0 _ Hin) as [?| ->]; [by left|]. by right; exists 1.
    - right. exists (S i). simpl. by rewrite <- app_assoc. }
  destruct (m !! (at_dir ++ [c])%list) as [[|content]|] eqn:Hp.
  - apply (Hstep m); [by left | done].
  - left. eauto.
  - apply (Hstep (<[(at_dir ++ [c])%list := OS.NDir]> m)); [|done].
    intros k' Hk'. destruct (decide (k' = (at_dir ++ [c])%list)) as [->|Hne]; [by right|].
    left. by rewrite lookup_insert_ne in Hk'.
Qed.

(** X20. An image that was written is found again after a restart:
    when [Write] of [repo:tag] returns [nil], for proper names [repo] and
    [tag] and a root path without [.] and [..] elements, a backend built
    anew by [NewFileImageStorage] over the resulting file system lists
    [repo:tag]. *)
Theorem Write_survives_restart fis repo tag reader fs fis' fs' :
  Dir fis ≠ "" → sane fs →
  Forall (λ c, c ≠ "." ∧ c ≠ "..") (OS.components (Dir fis)) →
  valid_name repo → ¬ has_colon repo → valid_name tag →
  Write fis (repo ++ ":" ++ tag) reader fs = (None, fis', fs') →
  sane fs' ∧
  repo ++ ":" ++ tag ∈ Names (images (NewFileImageStorage (Dir fis') fs')).
Proof.
  intros Hdir Hsane Hplain Hrepo Hcolon Htag.
  rewrite Write_steps. unfold Write_path, Write_dir, Write_id.
  rewrite (parseImageName_colon repo tag Hcolon). unfold Sprintf_slash.
  set (D := OS.components (Dir fis)) in *.
  assert (HD : Forall valid_name D).
  { pose proof (components_elems (Dir fis)) as Hel. fold D in Hel.
    rewrite Forall_forall in Hel, Hplain. apply Forall_forall. intros c Hc.
    destruct (Hel c Hc), (Hplain c Hc). by repeat split. }
  assert (Hcd : OS.components (Dir fis ++ "/" ++ repo) = (D ++ [repo])%list).
  { destruct Hrepo as (? & ? & _). by rewrite components_app, (components_name repo). }
  assert (Hcf : OS.components ((Dir fis ++ "/" ++ repo) ++ "/" ++ tag)
                = (D ++ [repo; tag])%list).
  { destruct Htag as (? & ? & _).
    rewrite components_app, Hcd, (components_name tag) by done.
    by rewrite <- app_assoc. }
  unfold OS.MkdirAll.
  destruct (String.eqb (Dir fis ++ "/" ++ repo) ""); [done|]. rewrite Hcd.
  destruct (OS.mkdir_all (OS.nodes fs) [] (D ++ [repo])) as [[e|] m1] eqn:Hm; [done|].
  destruct (OS.Create _ _) as [[f|e] fs2] eqn:Hc; [|done].
  apply Create_ok in Hc as (Hf & _ & _ & Hnodes). rewrite Hcf in Hf. simpl in Hnodes.
  destruct (OS.Copy_to_file f reader fs2) as [[e|] fs3] eqn:Hcopy; [done|].
  intros [= <- <-]. simpl.
  assert (Hfile : OS.nodes fs3 !! f = Some (OS.NFile (rdata reader))).
  { apply (Copy_to_file_ok f reader fs2 fs3 []); [done|].
    rewrite Hnodes. apply lookup_insert_eq. }
  assert (Hother : ∀ q, q ≠ f → OS.nodes fs3 !! q = m1 !! q).
  { intros q Hq. pose proof (Copy_to_file_frame f reader fs2 q Hq) as H3.
    rewrite Hcopy in H3. simpl in H3. rewrite H3, Hnodes.
    by rewrite lookup_insert_ne. }
  assert (Hway : ∀ i, 0 < i → (i ≤ length (D ++ [repo]))%nat →
                      m1 !! take i (D ++ [repo]) = Some OS.NDir).
  { intros i Hi Hle. exact (mkdir_all_ok _ _ [] _ i Hm Hi Hle). }
  assert (Hrepodir : OS.nodes fs3 !! (D ++ [repo])%list = Some OS.NDir).
  { rewrite Hother.
    - specialize (Hway (length (D ++ [repo])) ltac:(rewrite length_app; simpl; lia)
                       ltac:(lia)).
      by rewrite take_ge in Hway by lia.
    - rewrite Hf. intros Heq. apply (f_equal length) in Heq.
      rewrite !length_app in Heq. simpl in Heq. lia. }
  assert (Hroot : OS.stat fs3 D = Some OS.NDir).
  { destruct D as [|d D'] eqn:HDe; [done|]. rewrite <- HDe in *.
    rewrite stat_nonempty by (by rewrite HDe). rewrite Hother.
    - specialize (Hway (length D) ltac:(rewrite HDe; simpl; lia)
                       ltac:(rewrite length_app; lia)).
      by rewrite take_app_length in Hway.
    - rewrite Hf. intros Heq. apply (f_equal length) in Heq.
      rewrite !length_app in Heq. simpl in Heq. lia. }
  assert (Hsane3 : sane fs3).
  { intros k n Hk. destruct (decide (k = f)) as [->|Hne].
    - rewrite Hf. apply Forall_app. split; [done|].
      repeat first [apply List.Forall_nil | apply List.Forall_cons; [assumption|]].
    - rewrite (Hother k Hne) in Hk.
      pose proof (mkdir_all_keys (OS.nodes fs) [] (D ++ [repo]) k n) as Hkeys.
      rewrite Hm in Hkeys. destruct (Hkeys Hk) as [[n' Hn']|[i ->]].
      + by apply (Hsane k n').
      + simpl. apply Forall_take, Forall_app. split; [done|].
        repeat first [apply List.Forall_nil | apply List.Forall_cons; [assumption|]]. }
  split; [exact Hsane3|].
  apply (scan_lists (Dir fis) fs3 repo tag (rdata reader)); try done.
  fold D. by rewrite <- Hf.
Qed.

Lemma Write_survives_restart_witness :
  "repoC:v1" ∈ Names (images (NewFileImageStorage "/data"
     (Write {| Dir := "/data"; images := NewImageNameList |} "repoC:v1"
            Sample.hello SampleTree.tree).2)).
Proof.
  pose (fis := {| Dir := "/data"; images := NewImageNameList |}).
  pose (r := Write fis "repoC:v1" Sample.hello SampleTree.tree).
  assert (Hw : Write fis ("repoC" ++ ":" ++ "v1") Sample.hello SampleTree.tree
               = (None, r.1.2, r.2)) by (vm_compute; reflexivity).
  refine (proj2 (Write_survives_restart fis "repoC" "v1" Sample.hello SampleTree.tree
                   r.1.2 r.2 _ sane_tree _ _ _ _ Hw)).
  - done.
  - simpl. repeat constructor; discriminate.
  - unfold valid_name, no_slash; simpl; intuition discriminate.
  - unfold has_colon; simpl; intuition discriminate.
  - unfold valid_name, no_slash; simpl; intuition discriminate.
Defined.

End restart.
